(** * webpa-common: listener aggregation, codec pools, authorization
      decoration and the SNS webhook bridge

    A shallow embedding of

      - [device] listener aggregation (the variadic [...Listeners] functions),
      - [wrp/pool.go] (the encoder and decoder pools),
      - [secure/handler/authorizationHandler.go] ([AuthorizationHandler]),
      - the SNS subscription bridge exercised by
        [webhook/aws/sns_example_test.go].

    Part I holds the definitions, Part II the theorems about them. *)

From Stdlib Require Import ZArith Lia.
From stdpp Require Import base option list strings gmap pretty.

Set Default Proof Using "Type".
Open Scope string_scope.
Open Scope list_scope.
Open Scope nat_scope.

(** * Part I: definitions *)

(** ** Go runtime conventions shared by the packages

    A Go statement run against a world [W] either completes with a new world
    or panics ([None]).  A value of a func or interface type may be [nil];
    such types are modelled as [option] of the callable. *)

Module Go.

Definition Proc (W : Type) : Type := W → option W.

Definition skip {W} : Proc W := λ w, Some w.

Definition seq {W} (p q : Proc W) : Proc W :=
  λ w, match p w with
       | Some w' => q w'
       | None => None
       end.

(** [for _, l := range ls { body l }] *)
Fixpoint range {W L} (body : L → Proc W) (ls : list L) : Proc W :=
  match ls with
  | [] => skip
  | l :: ls' => seq (body l) (range body ls')
  end.

(** A value of a nil-able type that is not nil. *)
Definition not_nil {T} (x : option T) : Prop := x ≠ None.

(** The double quote character, for the format strings of the source. *)
Definition dq : string := String (Ascii.ascii_of_nat 34) EmptyString.

End Go.

(** ** Package device: listener aggregation *)

Module Device.
Section Listeners.
Context {Interface Message W : Type}.

(** The func types of the package.  Each is nil-able; a non-nil listener is
    a closure run against the world. *)
Definition MessageReceivedListener : Type :=
  option (Interface → list Byte.byte → Message → Go.Proc W).
Definition ConnectListener : Type := option (Interface → Go.Proc W).
Definition DisconnectListener : Type := option (Interface → Go.Proc W).
Definition PongListener : Type := option (Interface → string → Go.Proc W).

(** Calling a func value: a nil func panics. *)
Definition call_message_received (l : MessageReceivedListener)
    (device : Interface) (raw : list Byte.byte) (message : Message) : Go.Proc W :=
  match l with Some f => f device raw message | None => λ _, None end.
Definition call_connect (l : ConnectListener) (device : Interface) : Go.Proc W :=
  match l with Some f => f device | None => λ _, None end.
Definition call_disconnect (l : DisconnectListener) (device : Interface) : Go.Proc W :=
  match l with Some f => f device | None => λ _, None end.
Definition call_pong (l : PongListener) (device : Interface) (data : string) : Go.Proc W :=
  match l with Some f => f device data | None => λ _, None end.

Definition defaultMessageReceivedListener :
    Interface → list Byte.byte → Message → Go.Proc W := λ _ _ _, Go.skip.
Definition defaultConnectListener : Interface → Go.Proc W := λ _, Go.skip.
Definition defaultDisconnectListener : Interface → Go.Proc W := λ _, Go.skip.
Definition defaultPongListener : Interface → string → Go.Proc W := λ _ _, Go.skip.

Definition MessageReceivedListeners (listeners : list MessageReceivedListener)
    : MessageReceivedListener :=
  if decide (0 < length listeners) then
    Some (λ device raw message,
            Go.range (λ l, call_message_received l device raw message) listeners)
  else Some defaultMessageReceivedListener.

Definition ConnectListeners (listeners : list ConnectListener) : ConnectListener :=
  if decide (0 < length listeners) then
    Some (λ device, Go.range (λ l, call_connect l device) listeners)
  else Some defaultConnectListener.

Definition DisconnectListeners (listeners : list DisconnectListener)
    : DisconnectListener :=
  if decide (0 < length listeners) then
    Some (λ device, Go.range (λ l, call_disconnect l device) listeners)
  else Some defaultDisconnectListener.

Definition PongListeners (listeners : list PongListener) : PongListener :=
  if decide (0 < length listeners) then
    Some (λ device data, Go.range (λ l, call_pong l device data) listeners)
  else Some defaultPongListener.

End Listeners.

Arguments MessageReceivedListener : clear implicits.
Arguments ConnectListener : clear implicits.
Arguments DisconnectListener : clear implicits.
Arguments PongListener : clear implicits.

(** A closure that cannot panic, as a listener of each type. *)
Definition total3 {I M W} (f : I → list Byte.byte → M → W → W)
    : MessageReceivedListener I M W := Some (λ d r m w, Some (f d r m w)).
Definition total1 {I W} (f : I → W → W) : option (I → Go.Proc W) :=
  Some (λ d w, Some (f d w)).
Definition total2 {I W} (f : I → string → W → W) : PongListener I W :=
  Some (λ d s w, Some (f d s w)).

End Device.

(** ** Buffered channels

    A buffered Go channel on which no goroutine is parked: a FIFO buffer with
    a fixed capacity.  A receive is ready when the buffer is non-empty, a send
    when the buffer has room; otherwise the operation would block, which the
    attempt functions report as [None].  A [select] with a [default] case
    is a match on the attempt. *)

Module Chan.

Record chan (A : Type) : Type := Make { buf : list A; cap : nat }.
Arguments Make {A} _ _.
Arguments buf {A} _.
Arguments cap {A} _.

(** [make(chan A, n)] *)
Definition make {A} (n : nat) : chan A := Make [] n.

(** [x = <-c], when ready *)
Definition try_recv {A} (c : chan A) : option (A * chan A) :=
  match buf c with
  | [] => None
  | x :: rest => Some (x, Make rest (cap c))
  end.

(** [c <- x], when ready *)
Definition try_send {A} (c : chan A) (x : A) : option (chan A) :=
  if decide (length (buf c) < cap c) then Some (Make (buf c ++ [x]) (cap c))
  else None.

(** [for repeat := 0; repeat < n; repeat++ { c <- x }] with plain (blocking)
    sends: [None] when one of the sends would block. *)
Fixpoint fill {A} (n : nat) (x : A) (c : chan A) : option (chan A) :=
  match n with
  | O => Some c
  | S n' => match try_send c x with
            | Some c' => fill n' x c'
            | None => None
            end
  end.

(** A channel within its capacity all of whose elements satisfy [P]. *)
Definition within {A} (P : A → Prop) (c : chan A) : Prop :=
  length (buf c) ≤ cap c ∧ Forall P (buf c).

End Chan.

(** ** Package wrp: the codec pools (pool.go) *)

Module WRP.

(** What pool.go uses of the rest of the package: the [Format] type, the
    [Encoder] and [Decoder] interfaces (values of which may be nil) and
    their constructors, called by the pools with a nil stream. *)
Class Codec : Type := {
  Format : Type;
  EncoderImpl : Type;
  DecoderImpl : Type;
  NewEncoder : Format → option EncoderImpl;
  NewDecoder : Format → option DecoderImpl;
}.

Definition DefaultPoolSize : Z := 100.

(** The size a pool is built with: [poolSize], or the default when that is
    less than 1. *)
Definition pool_size (poolSize : Z) : nat :=
  Z.to_nat (if decide (poolSize < 1)%Z then DefaultPoolSize else poolSize).

Section Pools.
Context `{Codec}.

Definition Encoder : Type := option EncoderImpl.
Definition Decoder : Type := option DecoderImpl.

Record EncoderPool : Type := MkEncoderPool {
  ep_pool : Chan.chan Encoder;
  ep_format : Format;
}.

Record DecoderPool : Type := MkDecoderPool {
  dp_pool : Chan.chan Decoder;
  dp_format : Format;
}.

Definition EncoderPool_Format (ep : EncoderPool) : Format := ep_format ep.

Definition EncoderPool_New (ep : EncoderPool) : Encoder := NewEncoder (ep_format ep).

(** [None] when a send of the filling loop would block.  The channel is taken
    to be one the runtime can make; [WRPCodec.NewEncoderPool_limited] has the
    limit of the runtime on the size of a channel. *)
Definition NewEncoderPool (poolSize : Z) (f : Format) : option EncoderPool :=
  let poolSize := if decide (poolSize < 1)%Z then DefaultPoolSize else poolSize in
  let ep := MkEncoderPool (Chan.make (Z.to_nat poolSize)) f in
  match Chan.fill (Z.to_nat poolSize) (EncoderPool_New ep) (ep_pool ep) with
  | Some c => Some (MkEncoderPool c f)
  | None => None
  end.

Definition EncoderPool_Get (ep : EncoderPool) : Encoder * EncoderPool :=
  match Chan.try_recv (ep_pool ep) with
  | Some (encoder, c) => (encoder, MkEncoderPool c (ep_format ep))
  | None => (EncoderPool_New ep, ep)
  end.

Definition EncoderPool_Put (encoder : Encoder) (ep : EncoderPool) : EncoderPool :=
  if decide (encoder ≠ None) then
    match Chan.try_send (ep_pool ep) encoder with
    | Some c => MkEncoderPool c (ep_format ep)
    | None => ep
    end
  else ep.

Definition DecoderPool_Format (dp : DecoderPool) : Format := dp_format dp.

Definition DecoderPool_New (dp : DecoderPool) : Decoder := NewDecoder (dp_format dp).

(** As [NewEncoderPool]; [WRPCodec.NewDecoderPool_limited] has the limit of
    the runtime on the size of a channel. *)
Definition NewDecoderPool (poolSize : Z) (f : Format) : option DecoderPool :=
  let poolSize := if decide (poolSize < 1)%Z then DefaultPoolSize else poolSize in
  let dp := MkDecoderPool (Chan.make (Z.to_nat poolSize)) f in
  match Chan.fill (Z.to_nat poolSize) (DecoderPool_New dp) (dp_pool dp) with
  | Some c => Some (MkDecoderPool c f)
  | None => None
  end.

Definition DecoderPool_Get (dp : DecoderPool) : Decoder * DecoderPool :=
  match Chan.try_recv (dp_pool dp) with
  | Some (decoder, c) => (decoder, MkDecoderPool c (dp_format dp))
  | None => (DecoderPool_New dp, dp)
  end.

Definition DecoderPool_Put (decoder : Decoder) (dp : DecoderPool) : DecoderPool :=
  if decide (decoder ≠ None) then
    match Chan.try_send (dp_pool dp) decoder with
    | Some c => MkDecoderPool c (dp_format dp)
    | None => dp
    end
  else dp.

(** Uses of a pool by its clients, one after the other. *)
Inductive enc_op : Type := EncGet | EncPut (encoder : Encoder).
Inductive dec_op : Type := DecGet | DecPut (decoder : Decoder).

Definition enc_step (ep : EncoderPool) (o : enc_op) : EncoderPool :=
  match o with
  | EncGet => snd (EncoderPool_Get ep)
  | EncPut e => EncoderPool_Put e ep
  end.

Definition dec_step (dp : DecoderPool) (o : dec_op) : DecoderPool :=
  match o with
  | DecGet => snd (DecoderPool_Get dp)
  | DecPut d => DecoderPool_Put d dp
  end.

Definition enc_run (os : list enc_op) (ep : EncoderPool) : EncoderPool :=
  fold_left enc_step os ep.
Definition dec_run (os : list dec_op) (dp : DecoderPool) : DecoderPool :=
  fold_left dec_step os dp.

End Pools.

(** A codec with a single format, whose encoders and decoders are numbers. *)
Definition unit_codec : Codec :=
  {| Format := unit; EncoderImpl := nat; DecoderImpl := nat;
     NewEncoder := λ _, Some 0; NewDecoder := λ _, Some 1 |}.

End WRP.

(** ** net/http as the handlers use it *)

Module Http.

Definition StatusOK : Z := 200.
Definition StatusBadRequest : Z := 400.
Definition StatusForbidden : Z := 403.

(** A Go [error] value is represented by its [Error()] text; [None] is the
    nil error. *)
Definition error : Type := string.

(** [http.Header]: a map from canonical keys to their values. *)
Definition Header : Type := gmap string (list string).

Record Request : Type := {
  Method : string;
  URL_Path : string;
  URL_String : string;        (* what [URL.String()] returns *)
  Req_Header : Header;
  ContentLength : Z;
  RemoteAddr : string;
}.

(** The response writer, as [httptest.ResponseRecorder] behaves: the first
    [WriteHeader] fixes the status, and panics when the status is not a
    three-digit one; a [Write] before any [WriteHeader] fixes the status to
    200. *)
Record ResponseWriter : Type := {
  rw_header : Header;
  rw_code : option Z;
  rw_body : string;
}.

Definition NewRecorder : ResponseWriter :=
  {| rw_header := ∅; rw_code := None; rw_body := "" |}.

Section Canonical.
Context (CanonicalMIMEHeaderKey : string → string).

(** [h.Get(key)] *)
Definition Header_Get (h : Header) (key : string) : string :=
  match h !! CanonicalMIMEHeaderKey key with
  | Some (v :: _) => v
  | _ => ""
  end.

(** [h.Set(key, value)] *)
Definition Header_Set (key value : string) (h : Header) : Header :=
  <[CanonicalMIMEHeaderKey key := [value]]> h.

(** [response.Header().Set(key, value)] *)
Definition SetHeader (key value : string) (rw : ResponseWriter) : ResponseWriter :=
  {| rw_header := Header_Set key value (rw_header rw);
     rw_code := rw_code rw; rw_body := rw_body rw |}.

End Canonical.

(** The statuses [WriteHeader] accepts; any other makes it panic
    ([invalid WriteHeader code]). *)
Definition valid_status (code : Z) : Prop := (100 ≤ code ≤ 999)%Z.

(** [response.WriteHeader(code)]: nothing happens on a writer whose status is
    written already; otherwise the status is checked, then written.  [None]
    is the panic. *)
Definition WriteHeader (code : Z) (rw : ResponseWriter) : option ResponseWriter :=
  match rw_code rw with
  | Some _ => Some rw
  | None =>
      if decide (valid_status code) then
        Some {| rw_header := rw_header rw; rw_code := Some code; rw_body := rw_body rw |}
      else None
  end.

(** [response.Write(data)] *)
Definition Write (data : string) (rw : ResponseWriter) : ResponseWriter :=
  {| rw_header := rw_header rw;
     rw_code := Some (default StatusOK (rw_code rw));
     rw_body := rw_body rw +:+ data |}.

(** A writer to which nothing has been written: no status, no body. *)
Definition unwritten (rw : ResponseWriter) : Prop :=
  rw_code rw = None ∧ rw_body rw = "".

End Http.

(** ** Package secure/handler: AuthorizationHandler *)

Module Handler.
Import Http.

(** What authorizationHandler.go uses of packages [secure], [logging] and
    [net/textproto]. *)
Class Env : Type := {
  AuthorizationHeader : string;                     (* secure.AuthorizationHeader *)
  Token : Type;                                     (* *secure.Token *)
  ParseAuthorization : string → Token * option error;
  LoggerImpl : Type;                                (* a non-nil logging.Logger *)
  LoggerWriter_Stdout : LoggerImpl;                 (* &logging.LoggerWriter{os.Stdout} *)
  CanonicalMIMEHeaderKey : string → string;
}.

Definition JsonContentType : string := "application/json; charset=UTF-8".
Definition ContentTypeHeader : string := "Content-Type".
Definition ContentTypeOptionsHeader : string := "X-Content-Type-Options".
Definition NoSniff : string := "nosniff".

Section Authorization.
Context `{Env} {X : Type}.

(** [context.Context] with string keys: the values added, newest first. *)
Definition Context_ : Type := list (string * string).

(** [secure.Validator]: [Validate(ctx, token) (bool, error)], taken to be a
    function of the context and the token: a validator that keeps state or
    reads the clock is outside this model. *)
Definition ValidatorImpl : Type := Context_ → Token → bool * option error.

(** The program state a handler runs against: the response being written,
    what has been handed to loggers ([Error] calls with their parameters),
    and the rest [X] of the state, which only the delegate touches. *)
Record World : Type := {
  response : ResponseWriter;
  log : list (LoggerImpl * list string);
  rest : X;
}.

(** A call on the response writer, which may panic. *)
Definition on_response (f : ResponseWriter → option ResponseWriter) : Go.Proc World :=
  λ w, match f (response w) with
       | Some rw => Some {| response := rw; log := log w; rest := rest w |}
       | None => None
       end.

(** [logger.Error(params...)] *)
Definition Logger_Error (logger : LoggerImpl) (params : list string) (w : World) : World :=
  {| response := response w; log := log w ++ [(logger, params)]; rest := rest w |}.

(** [http.Handler], nil-able; serving through a nil handler panics. *)
Definition HandlerT : Type := option (Request → Go.Proc World).

Definition ServeHTTP (h : HandlerT) (request : Request) : Go.Proc World :=
  match h with Some f => f request | None => λ _, None end.

(** The body written is [fmt.Fprintf(response, `{"message": "%s"}`, message)]. *)
Definition json_message (message : string) : string :=
  "{" +:+ Go.dq +:+ "message" +:+ Go.dq +:+ ": " +:+ Go.dq +:+ message +:+ Go.dq +:+ "}".

(** [None] when [response.WriteHeader(code)] panics. *)
Definition WriteJsonError (code : Z) (message : string) (rw : ResponseWriter)
    : option ResponseWriter :=
  let rw := SetHeader CanonicalMIMEHeaderKey ContentTypeHeader JsonContentType rw in
  let rw := SetHeader CanonicalMIMEHeaderKey ContentTypeOptionsHeader NoSniff rw in
  match WriteHeader code rw with
  | Some rw => Some (Write (json_message message) rw)
  | None => None
  end.

Record AuthorizationHandler : Type := {
  HeaderName : string;
  ForbiddenStatusCode : Z;
  Validator : option ValidatorImpl;
  Logger : option LoggerImpl;
}.

Definition headerName (a : AuthorizationHandler) : string :=
  if decide (0 < String.length (HeaderName a)) then HeaderName a
  else AuthorizationHeader.

Definition forbiddenStatusCode (a : AuthorizationHandler) : Z :=
  if decide (0 < ForbiddenStatusCode a)%Z then ForbiddenStatusCode a
  else StatusForbidden.

Definition logger (a : AuthorizationHandler) : LoggerImpl :=
  match Logger a with
  | Some l => l
  | None => LoggerWriter_Stdout
  end.

(** The text logged for a denied request. *)
Definition reqLogMsg (request : Request) : string :=
  "Request {Method: " +:+ Method request +:+
  ", URL: " +:+ URL_String request +:+
  ", User-Agent: " +:+ Header_Get CanonicalMIMEHeaderKey (Req_Header request) "User-Agent" +:+
  ", ContentLength: " +:+ pretty (ContentLength request) +:+
  ", RemoteAddr: " +:+ RemoteAddr request +:+ "}".

(** The closure [Decorate] returns, over the variables it captures. *)
Definition decorated (headerName : string) (forbiddenStatusCode : Z)
    (logger : LoggerImpl) (validator : ValidatorImpl) (delegate : HandlerT)
    : Request → Go.Proc World :=
  λ request w,
    let headerValue := Header_Get CanonicalMIMEHeaderKey (Req_Header request) headerName in
    if decide (String.length headerValue = 0) then
      let message := "No " +:+ headerName +:+ " header" in
      let w := Logger_Error logger [message] w in
      on_response (WriteJsonError forbiddenStatusCode message) w
    else
      let '(token, err) := ParseAuthorization headerValue in
      match err with
      | Some e =>
          let message :=
            "Invalid authorization header [" +:+ headerName +:+ "]: " +:+ e in
          let w := Logger_Error logger [message] w in
          on_response (WriteJsonError forbiddenStatusCode message) w
      | None =>
          let ctx : Context_ := [("path", URL_Path request); ("method", Method request)] in
          let '(valid, err) := validator ctx token in
          let denied (w : World) : option World :=
            let w := Logger_Error logger ["Request denied: %s"; reqLogMsg request] w in
            on_response (WriteHeader forbiddenStatusCode) w in
          match err with
          | Some e => denied (Logger_Error logger ["Validation error: %s"; e] w)
          | None =>
              if valid then ServeHTTP delegate request w
              else denied w
          end
      end.

Definition Decorate (a : AuthorizationHandler) (delegate : HandlerT) : HandlerT :=
  match Validator a with
  | None => delegate
  | Some validator =>
      let headerName := headerName a in
      let forbiddenStatusCode := forbiddenStatusCode a in
      let logger := logger a in
      Some (decorated headerName forbiddenStatusCode logger validator delegate)
  end.

End Authorization.

Arguments World {_} _.
Arguments HandlerT {_} _.
Arguments AuthorizationHandler {_}.

(** An environment to run the handler in: tokens are the header values
    themselves, of which only [garbled] does not parse; loggers are known by
    name; header keys are taken as canonical already. *)
Definition plain_env : Env :=
  {| AuthorizationHeader := "Authorization";
     Token := string;
     ParseAuthorization := λ value,
       if decide (value = "garbled") then ("", Some "unparsable") else (value, None);
     LoggerImpl := string;
     LoggerWriter_Stdout := "stdout";
     CanonicalMIMEHeaderKey := λ key, key |}.

(** A delegate that counts its invocations in the rest of the state. *)
Definition counting_delegate `{Env} : Request → Go.Proc (World nat) :=
  λ _ w, Some {| response := response w; log := log w; rest := S (rest w) |}.

(** A validator of [plain_env] tokens: it approves [secret], fails on
    [broken] and rejects everything else. *)
Definition demo_validator : ValidatorImpl (H:=plain_env) :=
  λ _ tok,
    if decide (tok = "secret") then (true, None)
    else if decide (tok = "broken") then (false, Some "key store unreachable")
    else (false, None).

(** A configuration that leaves the header name and the status to their
    defaults, and one without a validator. *)
Definition demo_config : AuthorizationHandler (H:=plain_env) :=
  {| HeaderName := ""; ForbiddenStatusCode := 0;
     Validator := Some demo_validator; Logger := None |}.

Definition open_config : AuthorizationHandler (H:=plain_env) :=
  {| HeaderName := ""; ForbiddenStatusCode := 0; Validator := None; Logger := None |}.

(** A GET request carrying the given headers. *)
Definition demo_request (headers : Header) : Request :=
  {| Method := "GET"; URL_Path := "/devices"; URL_String := "/devices";
     Req_Header := headers; ContentLength := 0; RemoteAddr := "10.0.0.1:4000" |}.

(** The logger of [plain_env] that stands for standard output. *)
Definition stdout : LoggerImpl (Env:=plain_env) := "stdout".

(** The state at the arrival of a request: nothing written, nothing logged,
    the delegate not yet invoked. *)
Definition arrival : World (H:=plain_env) nat :=
  {| response := NewRecorder; log := []; rest := 0 |}.

End Handler.

(** ** Package webhook/aws: the SNS subscription bridge

    Only the tests of the bridge are part of the sources at hand
    (sns_example_test.go); the bridge itself is modelled from the
    specification, with the constants the tests fix. *)

Module SNS.
Import Http.

(** The identifier stored while a subscription awaits its confirmation, as the
    tests expect it. *)
Definition pending_sentinel : string := "pending confirmation".

(** The value of the [x-amz-sns-message-type] header the tests send. *)
Definition SubscriptionConfirmation : string := "SubscriptionConfirmation".

(** Modelled from the spec: the Subscription State of section 3, an
    identifier (empty, the pending sentinel or a confirmed value) paired with
    the generation it belongs to. *)
Record SubscriptionState : Type := {
  identifier : string;
  generation : nat;
}.

(** Modelled from the spec: [Load() → (identifier, generation)]. *)
Definition Load (s : SubscriptionState) : string * nat :=
  (identifier s, generation s).

(** Modelled from the spec: [StorePending(generation)]. *)
Definition StorePending (g : nat) (s : SubscriptionState) : SubscriptionState :=
  {| identifier := pending_sentinel; generation := g |}.

(** Modelled from the spec: [StoreConfirmed(identifier, generation)], a no-op
    when the supplied generation is not the stored one. *)
Definition StoreConfirmed (id : string) (g : nat) (s : SubscriptionState)
    : SubscriptionState :=
  if decide (g = generation s) then {| identifier := id; generation := g |} else s.

(** Modelled from the spec: [IsReady()], true iff the stored identifier is
    non-empty and not the pending sentinel. *)
Definition IsReady (s : SubscriptionState) : bool :=
  bool_decide (identifier s ≠ "" ∧ identifier s ≠ pending_sentinel).

(** Modelled from the spec: the Confirmation Callback record of section 3. *)
Record Callback : Type := {
  cb_type : string;
  cb_token : string;
  cb_signing_cert : string;
  cb_signature : string;
  cb_timestamp : string;
}.

(** Modelled from the spec: an inbound POST on the confirmation endpoint, its
    message-type header and its body. *)
Record Post : Type := {
  MessageType : string;
  Body : string;
}.

(** Modelled from the spec: the structured error body
    [{code: <int>, message: <string>}]. *)
Record ErrResp : Type := {
  Code : Z;
  Message : string;
}.

(** Modelled from the spec: the kinds of error the Confirmation Handler
    answers with. *)
Inductive error_kind : Type :=
| UnsupportedMessageType
| MalformedBody
| ValidationFailed
| UpstreamConfirmationFailed.

(** Modelled from the spec: what the Confirmation Handler does with a request:
    200 with an empty body, 400 with a structured body, an error response
    whose status the specification leaves open, or nothing at all. *)
Inductive Reply : Type :=
| Accepted
| BadRequest (kind : error_kind) (body : ErrResp)
| Failed (kind : error_kind)
| Ignored.

(** Modelled from the spec: the HTTP status of a reply, where it is fixed. *)
Definition status (r : Reply) : option Z :=
  match r with
  | Accepted => Some StatusOK
  | BadRequest _ _ => Some StatusBadRequest
  | Failed _ | Ignored => None
  end.

Section Bridge.
Context {Payload : Type}.

(** Modelled from the spec: the calls made on the Broker Client. *)
Inductive broker_call : Type :=
| CallSubscribe (callbackURL : string)
| CallConfirmSubscription (token : string)
| CallPublish (payload : Payload).

(** Modelled from the spec: the abstract Broker Client capability of section
    6.  An answer may depend on the calls made before. *)
Record Broker : Type := {
  brk_Subscribe : list broker_call → string → string + error;
  brk_ConfirmSubscription : list broker_call → string → string + error;
  brk_Publish : list broker_call → Payload → option error;
}.

(** Modelled from the spec: the abstract Validator capability,
    [Validate(confirmationCallback) → (bool, error)]. *)
Definition ValidatorT : Type := Callback → bool * option error.

(** Modelled from the spec: the configuration of the bridge: the callback URL
    handed to the broker, the bound of the publish queue, whether callbacks of
    other types are ignored rather than rejected, how a request body is
    parsed, and the reason reported for a callback the validator finds invalid
    without giving an error. *)
Record Config : Type := {
  callbackURL : string;
  queueCapacity : nat;
  ignoreOtherTypes : bool;
  decodeBody : string → Callback + error;
  invalidReason : string;
}.

(** Modelled from the spec: the Subscription Manager with its Publish
    Pipeline: the state cell, the generation whose worker is Active (if any),
    the queue, and ghost records of the broker calls made and the failures
    logged. *)
Record Manager : Type := {
  state : SubscriptionState;
  worker : option nat;
  queue : list Payload;
  calls : list broker_call;
  logged : list error;
}.

(** Modelled from the spec: the manager at construction, identifier empty and
    generation 0. *)
Definition init : Manager :=
  {| state := {| identifier := ""; generation := 0 |};
     worker := None; queue := []; calls := []; logged := [] |}.

(** Modelled from the spec: there is an Active worker, that of the current
    generation. *)
Definition active (m : Manager) : bool :=
  bool_decide (worker m = Some (generation (state m))).

(** Modelled from the spec: [Subscribe()] starts a new generation: the
    previous worker is retired and what it had queued is discarded, the state
    becomes pending for the new generation, and the broker is asked to
    subscribe; a failure of that call is logged. *)
Definition Subscribe (cfg : Config) (b : Broker) (m : Manager) : Manager :=
  let g := S (generation (state m)) in
  {| state := StorePending g (state m);
     worker := None;
     queue := [];
     calls := calls m ++ [CallSubscribe (callbackURL cfg)];
     logged := match brk_Subscribe b (calls m) (callbackURL cfg) with
               | inl _ => logged m
               | inr e => logged m ++ [e]
               end |}.

(** Modelled from the spec: [PrepareAndStart()], the first [Subscribe()];
    idempotent. *)
Definition PrepareAndStart (cfg : Config) (b : Broker) (m : Manager) : Manager :=
  if decide (generation (state m) = 0) then Subscribe cfg b m else m.

(** Modelled from the spec: [PublishMessage(payload)], a non-blocking enqueue;
    the message is dropped when no worker is active or the queue is full. *)
Definition PublishMessage (cfg : Config) (payload : Payload) (m : Manager) : Manager :=
  if active m && bool_decide (length (queue m) < queueCapacity cfg) then
    {| state := state m; worker := worker m; queue := queue m ++ [payload];
       calls := calls m; logged := logged m |}
  else m.

(** Modelled from the spec: one iteration of the Active worker: the oldest
    queued item is handed to the broker's publish operation; a failure is
    logged and the item is not retried. *)
Definition worker_step (b : Broker) (m : Manager) : Manager :=
  if active m then
    match queue m with
    | [] => m
    | payload :: q =>
        {| state := state m; worker := worker m; queue := q;
           calls := calls m ++ [CallPublish payload];
           logged := match brk_Publish b (calls m) payload with
                     | None => logged m
                     | Some e => logged m ++ [e]
                     end |}
    end
  else m.

(** Modelled from the spec: the pipeline after the state cell changed: a
    worker is Active exactly while the current generation is confirmed; a
    worker that is retired leaves its queue discarded. *)
Definition sync_worker (m : Manager) : Manager :=
  if IsReady (state m) then
    {| state := state m; worker := Some (generation (state m)); queue := queue m;
       calls := calls m; logged := logged m |}
  else
    {| state := state m; worker := None; queue := [];
       calls := calls m; logged := logged m |}.

(** Modelled from the spec: the reason reported for a failed validation, the
    validator's error message when it gave one. *)
Definition reason (cfg : Config) (err : option error) : string :=
  match err with
  | Some e => e
  | None => invalidReason cfg
  end.

(** Modelled from the spec: the Confirmation Handler of section 4.4. *)
Definition SubscribeConfirmHandle (cfg : Config) (b : Broker) (v : ValidatorT)
    (req : Post) (m : Manager) : Reply * Manager :=
  if decide (MessageType req = SubscriptionConfirmation) then
    match decodeBody cfg (Body req) with
    | inr e => (BadRequest MalformedBody {| Code := StatusBadRequest; Message := e |}, m)
    | inl cb =>
        match v cb with
        | (true, None) =>
            let called :=
              {| state := state m; worker := worker m; queue := queue m;
                 calls := calls m ++ [CallConfirmSubscription (cb_token cb)];
                 logged := logged m |} in
            match brk_ConfirmSubscription b (calls m) (cb_token cb) with
            | inl id =>
                (Accepted,
                 sync_worker
                   {| state := StoreConfirmed id (generation (state m)) (state m);
                      worker := worker called; queue := queue called;
                      calls := calls called; logged := logged called |})
            | inr e =>
                (Failed UpstreamConfirmationFailed,
                 {| state := state called; worker := worker called;
                    queue := queue called; calls := calls called;
                    logged := logged called ++ [e] |})
            end
        | (_, err) =>
            (BadRequest ValidationFailed
               {| Code := StatusBadRequest; Message := reason cfg err |}, m)
        end
    end
  else
    (if ignoreOtherTypes cfg then Ignored else Failed UnsupportedMessageType, m).

(** Modelled from the spec: what can happen to the bridge, one atomic step at
    a time: a call of its public surface, a confirmation request served, or an
    iteration of the worker. *)
Inductive event : Type :=
| DoSubscribe
| DoConfirm (req : Post)
| DoPublishMessage (payload : Payload)
| DoWorkerStep.

(** Modelled from the spec: the effect of one event. *)
Definition step (cfg : Config) (b : Broker) (v : ValidatorT) (m : Manager) (e : event)
    : Manager :=
  match e with
  | DoSubscribe => Subscribe cfg b m
  | DoConfirm req => snd (SubscribeConfirmHandle cfg b v req m)
  | DoPublishMessage payload => PublishMessage cfg payload m
  | DoWorkerStep => worker_step b m
  end.

(** Modelled from the spec: a sequence of events, oldest first. *)
Definition run (cfg : Config) (b : Broker) (v : ValidatorT) (es : list event)
    (m : Manager) : Manager :=
  fold_left (step cfg b v) es m.

(** The payloads the broker was asked to publish, oldest first. *)
Definition delivered (m : Manager) : list Payload :=
  omap (λ c, match c with CallPublish p => Some p | _ => None end) (calls m).

(** The payloads passed to [PublishMessage] in the course of [es] at a moment
    when the state was ready, oldest first. *)
Fixpoint offered_while_ready (cfg : Config) (b : Broker) (v : ValidatorT)
    (es : list event) (m : Manager) : list Payload :=
  match es with
  | [] => []
  | e :: es' =>
      match e with
      | DoPublishMessage p => if IsReady (state m) then [p] else []
      | _ => []
      end ++ offered_while_ready cfg b v es' (step cfg b v m e)
  end.

(** The pipeline agrees with the state cell: a worker is Active exactly when
    the state is ready, nothing is queued while it is not, and the queue is
    within its bound. *)
Definition consistent (cfg : Config) (m : Manager) : Prop :=
  worker m = (if IsReady (state m) then Some (generation (state m)) else None)
  ∧ (IsReady (state m) = false → queue m = [])
  ∧ (length (queue m) ≤ queueCapacity cfg)%nat.

End Bridge.

Arguments broker_call : clear implicits.
Arguments Broker : clear implicits.
Arguments Manager : clear implicits.
Arguments event : clear implicits.

(** The collaborators the tests set up: a broker that answers every subscribe
    call with the pending token and every confirm call with
    [testSubscriptionArn], validators that accept or reject every
    callback, and a request parser that takes a non-empty body as the
    confirmation token. *)
Definition test_broker : Broker string :=
  {| brk_Subscribe := λ _ _, inl pending_sentinel;
     brk_ConfirmSubscription := λ _ _, inl "testSubscriptionArn";
     brk_Publish := λ _ _, None |}.

Definition accepting : ValidatorT := λ _, (true, None).

Definition rejecting : ValidatorT := λ _, (false, Some "SNS signature validation error").

Definition test_config : Config :=
  {| callbackURL := "http://host:8090/api/v1/webhook/sns";
     queueCapacity := 4;
     ignoreOtherTypes := false;
     decodeBody := λ body,
       if decide (body = "") then inr "empty body"
       else inl {| cb_type := SubscriptionConfirmation; cb_token := body;
                   cb_signing_cert := ""; cb_signature := ""; cb_timestamp := "" |};
     invalidReason := "invalid confirmation" |}.

Definition test_confirmation : Post :=
  {| MessageType := SubscriptionConfirmation; Body := "token-1" |}.

Definition test_notification : Post :=
  {| MessageType := "Notification"; Body := "hello" |}.

End SNS.

(** ** Package wrp: encoding and decoding through a pool (pool.go) *)

Module WRPCodec.
Import WRP.

(** What [Encode], [EncodeBytes], [Decode] and [DecodeBytes] use of the
    [Encoder] and [Decoder] interfaces: their methods, run against a world
    [W] that holds the streams and byte slices written and read.  A method
    may panic; none of them touches a pool. *)
Class Methods (W : Type) `{Codec} : Type := {
  Writer : Type;                                   (* io.Writer *)
  Reader : Type;                                   (* io.Reader *)
  BytesRef : Type;                                 (* *[]byte *)
  Any : Type;                                      (* interface{} *)
  Encoder_Reset : EncoderImpl → Writer → Go.Proc W;
  Encoder_ResetBytes : EncoderImpl → BytesRef → Go.Proc W;
  Encoder_Encode : EncoderImpl → Any → W → option (option Http.error * W);
  Decoder_Reset : DecoderImpl → Reader → Go.Proc W;
  Decoder_ResetBytes : DecoderImpl → list Byte.byte → Go.Proc W;
  Decoder_Decode : DecoderImpl → Any → W → option (option Http.error * W);
}.

Section Shortcuts.
Context {W : Type} `{Methods W}.

(** [x.Reset...(target); return x.Encode(value)] (or [Decode]) on a value of
    the interface: both calls are method calls, which panic on nil. *)
Definition reset_then {T} (x : option T) (reset : T → Go.Proc W)
    (run : T → W → option (option Http.error * W)) : W → option (option Http.error * W) :=
  λ w, match x with
       | None => None
       | Some t => match reset t w with
                   | Some w' => run t w'
                   | None => None
                   end
       end.

(** Each shortcut gives the pool as the deferred [Put] leaves it, which runs
    whether the body returned or panicked, and the result of the body: [None]
    for a panic, else the error returned and the world. *)
Definition EncoderPool_Encode (destination : Writer) (source : Any)
    (ep : EncoderPool) (w : W) : EncoderPool * option (option Http.error * W) :=
  let '(encoder, ep) := EncoderPool_Get ep in
  (EncoderPool_Put encoder ep,
   reset_then encoder (λ e, Encoder_Reset e destination) (λ e, Encoder_Encode e source) w).

Definition EncoderPool_EncodeBytes (destination : BytesRef) (source : Any)
    (ep : EncoderPool) (w : W) : EncoderPool * option (option Http.error * W) :=
  let '(encoder, ep) := EncoderPool_Get ep in
  (EncoderPool_Put encoder ep,
   reset_then encoder (λ e, Encoder_ResetBytes e destination)
     (λ e, Encoder_Encode e source) w).

Definition DecoderPool_Decode (destination : Any) (source : Reader)
    (dp : DecoderPool) (w : W) : DecoderPool * option (option Http.error * W) :=
  let '(decoder, dp) := DecoderPool_Get dp in
  (DecoderPool_Put decoder dp,
   reset_then decoder (λ d, Decoder_Reset d source) (λ d, Decoder_Decode d destination) w).

Definition DecoderPool_DecodeBytes (destination : Any) (source : list Byte.byte)
    (dp : DecoderPool) (w : W) : DecoderPool * option (option Http.error * W) :=
  let '(decoder, dp) := DecoderPool_Get dp in
  (DecoderPool_Put decoder dp,
   reset_then decoder (λ d, Decoder_ResetBytes d source)
     (λ d, Decoder_Decode d destination) w).

End Shortcuts.

(** [make(chan T, n)] under a runtime that makes channels of at most [limit]
    elements: it panics, [None], for a size that is negative or beyond the
    limit. *)
Definition make_chan {A} (limit n : Z) : option (Chan.chan A) :=
  if decide (0 ≤ n ≤ limit)%Z then Some (Chan.make (Z.to_nat n)) else None.

(** The constructors under such a runtime: [None] when [make] panics or a
    send of the filling loop would block. *)
Definition NewEncoderPool_limited `{Codec} (limit poolSize : Z) (f : Format)
    : option EncoderPool :=
  let poolSize := if decide (poolSize < 1)%Z then DefaultPoolSize else poolSize in
  match make_chan limit poolSize with
  | None => None
  | Some pool =>
      let ep := MkEncoderPool pool f in
      match Chan.fill (Z.to_nat poolSize) (EncoderPool_New ep) (ep_pool ep) with
      | Some c => Some (MkEncoderPool c f)
      | None => None
      end
  end.

Definition NewDecoderPool_limited `{Codec} (limit poolSize : Z) (f : Format)
    : option DecoderPool :=
  let poolSize := if decide (poolSize < 1)%Z then DefaultPoolSize else poolSize in
  match make_chan limit poolSize with
  | None => None
  | Some pool =>
      let dp := MkDecoderPool pool f in
      match Chan.fill (Z.to_nat poolSize) (DecoderPool_New dp) (dp_pool dp) with
      | Some c => Some (MkDecoderPool c f)
      | None => None
      end
  end.

(** Methods for [unit_codec]: the world is the list of what was written;
    encoding appends the value, and fails on the empty value without writing;
    decoding into the empty destination panics. *)
Definition unit_methods : Methods (list string) (H:=unit_codec) :=
  {| Writer := unit; Reader := unit; BytesRef := unit; Any := string;
     Encoder_Reset := λ _ _ w, Some w;
     Encoder_ResetBytes := λ _ _ w, Some w;
     Encoder_Encode := λ _ source w,
       if decide (source = "") then Some (Some "nothing to encode", w)
       else Some (None, w ++ [source]);
     Decoder_Reset := λ _ _ w, Some w;
     Decoder_ResetBytes := λ _ _ w, Some w;
     Decoder_Decode := λ _ destination w,
       if decide (destination = "") then None else Some (None, w) |}.

(** An empty pool of [unit_codec] encoders with room for two, and an encoder
    to put into it. *)
Definition drained_pool : EncoderPool (H:=unit_codec) :=
  MkEncoderPool (H:=unit_codec) (Chan.Make [] 2) tt.

Definition spare_encoder : Encoder (H:=unit_codec) := Some 5.

End WRPCodec.

(** ** Further configurations of [plain_env] to run the handler with *)

Module HandlerDemo.
Import Http Handler.

(** A validator that approves every token. *)
Definition approve_all : ValidatorImpl (H:=plain_env) := λ _ _, (true, None).

(** A configuration with the defaults of [demo_config] written out, another
    logger apart, and the validator that approves everything. *)
Definition permissive_config : AuthorizationHandler (H:=plain_env) :=
  {| HeaderName := "Authorization"; ForbiddenStatusCode := 403;
     Validator := Some approve_all; Logger := Some stdout |}.

(** The configuration of [demo_config] with a forbidden status of 42. *)
Definition odd_status_config : AuthorizationHandler (H:=plain_env) :=
  {| HeaderName := ""; ForbiddenStatusCode := 42;
     Validator := Some demo_validator; Logger := None |}.

(** A state in which an earlier handler has answered already. *)
Definition answered : World (H:=plain_env) nat :=
  {| response := {| rw_header := ∅; rw_code := Some 200%Z; rw_body := "partial" |};
     log := []; rest := 0 |}.

End HandlerDemo.

(** ** A history of the bridge that fills the publish queue *)

Module SNSDemo.
Import SNS.


End SNSDemo.

(** * Part II: theorems *)

(** ** Listener aggregation *)

Module DeviceFacts.
Import Device.

Section Range.
Context {W L : Type}.

Lemma range_map {K} (h : K → L) (body : L → Go.Proc W) (ks : list K) (w : W) :
  Go.range body (map h ks) w = Go.range (λ k, body (h k)) ks w.
Proof.
  revert w. induction ks as [|k ks IH]; intros w; simpl; [done|].
  unfold Go.seq. destruct (body (h k) w); [apply IH | done].
Qed.

(** A loop over closures that do not panic runs them one after the other, in
    the order of the slice. *)
Lemma range_total (g : L → W → W) (ls : list L) (w : W) :
  Go.range (λ l w, Some (g l w)) ls w = Some (fold_left (λ w l, g l w) ls w).
Proof.
  revert w. induction ls as [|l ls IH]; intros w; simpl; [done|].
  unfold Go.seq. apply IH.
Qed.

End Range.

Section Listeners.
Context {Interface Message W : Type}.

Lemma message_received_listeners_spec
    (fs : list (Interface → list Byte.byte → Message → W → W)) :
  ∃ g, MessageReceivedListeners (map total3 fs) = Some g ∧
    ∀ device raw message w,
      g device raw message w = Some (fold_left (λ w f, f device raw message w) fs w).
Proof.
  unfold MessageReceivedListeners. case_decide as Hlen.
  - eexists; split; [done|]. intros device raw message w. cbv beta.
    rewrite range_map. apply (range_total (λ f w, f device raw message w)).
  - destruct fs; [|simpl in *; lia].
    eexists; split; [done|]. done.
Qed.

Lemma connect_listeners_spec (fs : list (Interface → W → W)) :
  ∃ g, ConnectListeners (map total1 fs) = Some g ∧
    ∀ device w, g device w = Some (fold_left (λ w f, f device w) fs w).
Proof.
  unfold ConnectListeners. case_decide as Hlen.
  - eexists; split; [done|]. intros device w. cbv beta.
    rewrite range_map. apply (range_total (λ f w, f device w)).
  - destruct fs; [|simpl in *; lia].
    eexists; split; [done|]. done.
Qed.

Lemma disconnect_listeners_spec (fs : list (Interface → W → W)) :
  ∃ g, DisconnectListeners (map total1 fs) = Some g ∧
    ∀ device w, g device w = Some (fold_left (λ w f, f device w) fs w).
Proof.
  unfold DisconnectListeners. case_decide as Hlen.
  - eexists; split; [done|]. intros device w. cbv beta.
    rewrite range_map. apply (range_total (λ f w, f device w)).
  - destruct fs; [|simpl in *; lia].
    eexists; split; [done|]. done.
Qed.

Lemma pong_listeners_spec (fs : list (Interface → string → W → W)) :
  ∃ g, PongListeners (map total2 fs) = Some g ∧
    ∀ device data w, g device data w = Some (fold_left (λ w f, f device data w) fs w).
Proof.
  unfold PongListeners. case_decide as Hlen.
  - eexists; split; [done|]. intros device data w. cbv beta.
    rewrite range_map. apply (range_total (λ f w, f device data w)).
  - destruct fs; [|simpl in *; lia].
    eexists; split; [done|]. done.
Qed.

(** C6.  Each of MessageReceivedListeners, ConnectListeners,
    DisconnectListeners and PongListeners, given zero listeners, returns the
    package's default listener, which is not nil and does nothing when called;
    given any listeners (closures that run to completion) it returns one
    function, not nil, and a call of that function runs every listener exactly
    once on the arguments of the call, in the order the listeners were
    supplied. *)
Theorem listeners_fan_out :
  ( MessageReceivedListeners (Interface:=Interface) (Message:=Message) (W:=W) []
      = Some defaultMessageReceivedListener
    ∧ (∀ device raw message (w : W),
         defaultMessageReceivedListener (Interface:=Interface) (Message:=Message)
           device raw message w = Some w)
    ∧ ∀ fs : list (Interface → list Byte.byte → Message → W → W),
        ∃ g, MessageReceivedListeners (map total3 fs) = Some g ∧
          ∀ device raw message w,
            g device raw message w
            = Some (fold_left (λ w f, f device raw message w) fs w) )
  ∧ ( ConnectListeners (Interface:=Interface) (W:=W) [] = Some defaultConnectListener
    ∧ (∀ device (w : W), defaultConnectListener (Interface:=Interface) device w = Some w)
    ∧ ∀ fs : list (Interface → W → W),
        ∃ g, ConnectListeners (map total1 fs) = Some g ∧
          ∀ device w, g device w = Some (fold_left (λ w f, f device w) fs w) )
  ∧ ( DisconnectListeners (Interface:=Interface) (W:=W) []
      = Some defaultDisconnectListener
    ∧ (∀ device (w : W),
         defaultDisconnectListener (Interface:=Interface) device w = Some w)
    ∧ ∀ fs : list (Interface → W → W),
        ∃ g, DisconnectListeners (map total1 fs) = Some g ∧
          ∀ device w, g device w = Some (fold_left (λ w f, f device w) fs w) )
  ∧ ( PongListeners (Interface:=Interface) (W:=W) [] = Some defaultPongListener
    ∧ (∀ device data (w : W),
         defaultPongListener (Interface:=Interface) device data w = Some w)
    ∧ ∀ fs : list (Interface → string → W → W),
        ∃ g, PongListeners (map total2 fs) = Some g ∧
          ∀ device data w,
            g device data w = Some (fold_left (λ w f, f device data w) fs w) ).
Proof.
  repeat split; try done.
  - apply message_received_listeners_spec.
  - apply connect_listeners_spec.
  - apply disconnect_listeners_spec.
  - apply pong_listeners_spec.
Qed.

(** Whatever is supplied, nil listeners included, the aggregate is not nil. *)
Lemma listeners_not_nil :
  (∀ ls : list (MessageReceivedListener Interface Message W),
     MessageReceivedListeners ls ≠ None)
  ∧ (∀ ls : list (ConnectListener Interface W), ConnectListeners ls ≠ None)
  ∧ (∀ ls : list (DisconnectListener Interface W), DisconnectListeners ls ≠ None)
  ∧ (∀ ls : list (PongListener Interface W), PongListeners ls ≠ None).
Proof.
  unfold MessageReceivedListeners, ConnectListeners, DisconnectListeners,
    PongListeners.
  repeat split; intros ls; case_decide; done.
Qed.

End Listeners.

Lemma fold_recorders {Interface : Type} (n k : nat) (device : Interface)
    (acc : list (nat * Interface)) :
  fold_left (λ w f, f device w)
    (map (λ i d (w : list (nat * Interface)), w ++ [(i, d)]) (seq k n)) acc
  = acc ++ map (λ i, (i, device)) (seq k n).
Proof.
  revert k acc. induction n as [|n IH]; intros k acc; simpl.
  - by rewrite app_nil_r.
  - rewrite IH. by rewrite <- app_assoc.
Qed.

(** Listeners that record their own position and the device they were called
    with: after one call of the aggregate of [n] of them the record holds
    each position once, in increasing order. *)
Lemma connect_listeners_trace {Interface : Type} (n : nat) (device : Interface) :
  ∃ g, ConnectListeners
         (map (λ i, total1 (λ d (w : list (nat * Interface)), w ++ [(i, d)])) (seq 0 n))
       = Some g ∧
    g device [] = Some (map (λ i, (i, device)) (seq 0 n)).
Proof.
  destruct (connect_listeners_spec
              (map (λ i d (w : list (nat * Interface)), w ++ [(i, d)]) (seq 0 n)))
    as (g & Hg & Hcall).
  exists g. split.
  - rewrite <- Hg. by rewrite map_map.
  - rewrite Hcall. f_equal. apply (fold_recorders n 0 device []).
Qed.

(** Two listeners and a device: the aggregate calls the first, then the
    second; the aggregate of none does nothing; a nil listener among those
    supplied makes the call panic once the loop reaches it. *)
Example connect_two_listeners :
  ∃ g, ConnectListeners
         [total1 (λ (d : string) (w : list string), w ++ ["first saw " +:+ d]);
          total1 (λ (d : string) (w : list string), w ++ ["second saw " +:+ d])]
       = Some g
    ∧ g "mac:112233445566" [] = Some ["first saw mac:112233445566";
                                      "second saw mac:112233445566"].
Proof. eexists. split; reflexivity. Qed.

Example pong_no_listeners :
  call_pong (PongListeners (Interface:=string) (W:=list string) []) "mac:1" "ping" ["kept"]
  = Some ["kept"].
Proof. reflexivity. Qed.

Example disconnect_nil_listener :
  call_disconnect
    (DisconnectListeners
       [total1 (λ (d : string) (w : list string), w ++ [d]); None])
    "mac:1" []
  = None.
Proof. reflexivity. Qed.

End DeviceFacts.

(** ** The codec pools *)

Module WRPFacts.
Import WRP.

Section ChanFacts.
Context {A : Type}.

(** The filling loop of the constructors does not block while there is room
    for what it sends. *)
Lemma fill_room (n : nat) (x : A) (c : Chan.chan A) :
  length (Chan.buf c) + n ≤ Chan.cap c →
  Chan.fill n x c = Some (Chan.Make (Chan.buf c ++ replicate n x) (Chan.cap c)).
Proof.
  revert c. induction n as [|n IH]; intros [b k]; simpl; intros Hroom.
  - by rewrite app_nil_r.
  - unfold Chan.try_send; simpl. case_decide; [|lia].
    rewrite IH.
    + simpl. by rewrite <- app_assoc.
    + simpl. rewrite length_app. simpl. lia.
Qed.

Lemma try_recv_within P (c c' : Chan.chan A) (x : A) :
  Chan.within P c → Chan.try_recv c = Some (x, c') →
  P x ∧ Chan.within P c' ∧ Chan.cap c' = Chan.cap c.
Proof.
  unfold Chan.try_recv, Chan.within. destruct c as [[|y b] k]; simpl; [done|].
  intros [Hlen Hall] [= <- <-]. simpl. apply Forall_cons in Hall as [Hy Hb].
  split; [done|]. split; [split|done]; [lia | done].
Qed.

Lemma try_send_within P (c c' : Chan.chan A) (x : A) :
  Chan.within P c → P x → Chan.try_send c x = Some c' →
  Chan.within P c' ∧ Chan.cap c' = Chan.cap c.
Proof.
  unfold Chan.try_send, Chan.within. destruct c as [b k]; simpl.
  intros [Hlen Hall] Hx. case_decide; [|done]. intros [= <-]. simpl.
  rewrite length_app. simpl. split; [split|done].
  - lia.
  - apply Forall_app. split; [done | by apply Forall_singleton].
Qed.

End ChanFacts.

Section PoolFacts.
Context `{Codec}.

(** The constructors return: none of their sends blocks, and the pool starts
    full of new instances. *)
Lemma NewEncoderPool_full (poolSize : Z) (f : Format) :
  NewEncoderPool poolSize f
  = Some (MkEncoderPool
            (Chan.Make (replicate (pool_size poolSize) (NewEncoder f)) (pool_size poolSize))
            f).
Proof.
  unfold NewEncoderPool, pool_size. simpl.
  rewrite fill_room; simpl; [done | lia].
Qed.

Lemma NewDecoderPool_full (poolSize : Z) (f : Format) :
  NewDecoderPool poolSize f
  = Some (MkDecoderPool
            (Chan.Make (replicate (pool_size poolSize) (NewDecoder f)) (pool_size poolSize))
            f).
Proof.
  unfold NewDecoderPool, pool_size. simpl.
  rewrite fill_room; simpl; [done | lia].
Qed.

Lemma enc_step_within (ep : EncoderPool) (o : enc_op) :
  Chan.within Go.not_nil (ep_pool ep) →
  Chan.within Go.not_nil (ep_pool (enc_step ep o))
  ∧ Chan.cap (ep_pool (enc_step ep o)) = Chan.cap (ep_pool ep)
  ∧ ep_format (enc_step ep o) = ep_format ep.
Proof.
  intros Hin. destruct o as [|e]; simpl.
  - unfold EncoderPool_Get.
    destruct (Chan.try_recv (ep_pool ep)) as [[x c]|] eqn:Hrecv; simpl; [|done].
    destruct (try_recv_within _ _ _ _ Hin Hrecv) as (_ & ? & ?). done.
  - unfold EncoderPool_Put. case_decide as Hnil; [|done].
    destruct (Chan.try_send (ep_pool ep) e) as [c|] eqn:Hsend; simpl; [|done].
    destruct (try_send_within Go.not_nil _ _ _ Hin Hnil Hsend) as (? & ?). done.
Qed.

Lemma dec_step_within (dp : DecoderPool) (o : dec_op) :
  Chan.within Go.not_nil (dp_pool dp) →
  Chan.within Go.not_nil (dp_pool (dec_step dp o))
  ∧ Chan.cap (dp_pool (dec_step dp o)) = Chan.cap (dp_pool dp)
  ∧ dp_format (dec_step dp o) = dp_format dp.
Proof.
  intros Hin. destruct o as [|d]; simpl.
  - unfold DecoderPool_Get.
    destruct (Chan.try_recv (dp_pool dp)) as [[x c]|] eqn:Hrecv; simpl; [|done].
    destruct (try_recv_within _ _ _ _ Hin Hrecv) as (_ & ? & ?). done.
  - unfold DecoderPool_Put. case_decide as Hnil; [|done].
    destruct (Chan.try_send (dp_pool dp) d) as [c|] eqn:Hsend; simpl; [|done].
    destruct (try_send_within Go.not_nil _ _ _ Hin Hnil Hsend) as (? & ?). done.
Qed.

Lemma enc_run_within (os : list enc_op) (ep : EncoderPool) :
  Chan.within Go.not_nil (ep_pool ep) →
  Chan.within Go.not_nil (ep_pool (enc_run os ep))
  ∧ Chan.cap (ep_pool (enc_run os ep)) = Chan.cap (ep_pool ep)
  ∧ ep_format (enc_run os ep) = ep_format ep.
Proof.
  revert ep. induction os as [|o os IH]; intros ep Hin; [done|].
  change (enc_run (o :: os) ep) with (enc_run os (enc_step ep o)).
  destruct (enc_step_within ep o Hin) as (Hin' & Hcap & Hfmt).
  destruct (IH _ Hin') as (? & ? & ?). split; [done|]. split; congruence.
Qed.

Lemma dec_run_within (os : list dec_op) (dp : DecoderPool) :
  Chan.within Go.not_nil (dp_pool dp) →
  Chan.within Go.not_nil (dp_pool (dec_run os dp))
  ∧ Chan.cap (dp_pool (dec_run os dp)) = Chan.cap (dp_pool dp)
  ∧ dp_format (dec_run os dp) = dp_format dp.
Proof.
  revert dp. induction os as [|o os IH]; intros dp Hin; [done|].
  change (dec_run (o :: os) dp) with (dec_run os (dec_step dp o)).
  destruct (dec_step_within dp o Hin) as (Hin' & Hcap & Hfmt).
  destruct (IH _ Hin') as (? & ? & ?). split; [done|]. split; congruence.
Qed.

Lemma within_replicate {T} (n : nat) (x : option T) :
  Go.not_nil x → Chan.within Go.not_nil (Chan.Make (replicate n x) n).
Proof.
  intros Hx. split; simpl; [by rewrite length_replicate|].
  by apply Forall_replicate.
Qed.

(** What [Get] and [Put] do on a pool, whatever its content. *)
Lemma EncoderPool_Get_cases (ep : EncoderPool) :
  (∀ e rest, Chan.buf (ep_pool ep) = e :: rest →
     EncoderPool_Get ep
     = (e, MkEncoderPool (Chan.Make rest (Chan.cap (ep_pool ep))) (ep_format ep)))
  ∧ (Chan.buf (ep_pool ep) = [] → EncoderPool_Get ep = (NewEncoder (ep_format ep), ep)).
Proof.
  unfold EncoderPool_Get, Chan.try_recv. split.
  - intros e rest ->. done.
  - intros ->. done.
Qed.

Lemma EncoderPool_Put_cases (ep : EncoderPool) :
  EncoderPool_Put None ep = ep
  ∧ (∀ e, Chan.cap (ep_pool ep) ≤ length (Chan.buf (ep_pool ep)) →
       EncoderPool_Put e ep = ep)
  ∧ (∀ e, e ≠ None → length (Chan.buf (ep_pool ep)) < Chan.cap (ep_pool ep) →
       EncoderPool_Put e ep
       = MkEncoderPool
           (Chan.Make (Chan.buf (ep_pool ep) ++ [e]) (Chan.cap (ep_pool ep)))
           (ep_format ep)).
Proof.
  unfold EncoderPool_Put, Chan.try_send. repeat split.
  - intros e Hfull. case_decide; [|done]. case_decide; [lia | done].
  - intros e Hnil Hroom. case_decide; [|done]. case_decide; [done | lia].
Qed.

Lemma DecoderPool_Get_cases (dp : DecoderPool) :
  (∀ d rest, Chan.buf (dp_pool dp) = d :: rest →
     DecoderPool_Get dp
     = (d, MkDecoderPool (Chan.Make rest (Chan.cap (dp_pool dp))) (dp_format dp)))
  ∧ (Chan.buf (dp_pool dp) = [] → DecoderPool_Get dp = (NewDecoder (dp_format dp), dp)).
Proof.
  unfold DecoderPool_Get, Chan.try_recv. split.
  - intros d rest ->. done.
  - intros ->. done.
Qed.

Lemma DecoderPool_Put_cases (dp : DecoderPool) :
  DecoderPool_Put None dp = dp
  ∧ (∀ d, Chan.cap (dp_pool dp) ≤ length (Chan.buf (dp_pool dp)) →
       DecoderPool_Put d dp = dp)
  ∧ (∀ d, d ≠ None → length (Chan.buf (dp_pool dp)) < Chan.cap (dp_pool dp) →
       DecoderPool_Put d dp
       = MkDecoderPool
           (Chan.Make (Chan.buf (dp_pool dp) ++ [d]) (Chan.cap (dp_pool dp)))
           (dp_format dp)).
Proof.
  unfold DecoderPool_Put, Chan.try_send. repeat split.
  - intros d Hfull. case_decide; [|done]. case_decide; [lia | done].
  - intros d Hnil Hroom. case_decide; [|done]. case_decide; [done | lia].
Qed.

(** [Get] on a pool of non-nil instances does not return nil. *)
Lemma EncoderPool_Get_not_nil (ep : EncoderPool) :
  Chan.within Go.not_nil (ep_pool ep) → NewEncoder (ep_format ep) ≠ None →
  fst (EncoderPool_Get ep) ≠ None.
Proof.
  destruct ep as [[b k] fmt]. unfold EncoderPool_Get, EncoderPool_New, Chan.try_recv.
  simpl. intros [_ Hall] Hnew. destruct b as [|e rest]; simpl; [done|].
  by apply Forall_cons in Hall as [? _].
Qed.

Lemma DecoderPool_Get_not_nil (dp : DecoderPool) :
  Chan.within Go.not_nil (dp_pool dp) → NewDecoder (dp_format dp) ≠ None →
  fst (DecoderPool_Get dp) ≠ None.
Proof.
  destruct dp as [[b k] fmt]. unfold DecoderPool_Get, DecoderPool_New, Chan.try_recv.
  simpl. intros [_ Hall] Hnew. destruct b as [|d rest]; simpl; [done|].
  by apply Forall_cons in Hall as [? _].
Qed.

(** C8.  A pool built by NewEncoderPool or NewDecoderPool (the constructor
    returns: its filling loop never blocks) and then used through any
    sequence of Get and Put calls never holds more than its capacity, which
    stays the size it was built with.  On such a pool Get returns at once, and
    never nil: the oldest pooled instance when there is one, which leaves the
    pool, and otherwise a new instance, the pool staying as it is.  Put does
    nothing when the instance supplied is nil or the pool is at capacity, and
    otherwise adds the instance to the pool.  (The constructors of the codecs
    themselves are taken not to return nil.) *)
Theorem codec_pools_bounded :
  (∀ f, NewEncoder f ≠ None) → (∀ f, NewDecoder f ≠ None) →
  ∀ (poolSize : Z) (f : Format),
    (∃ ep0, NewEncoderPool poolSize f = Some ep0 ∧
       ∀ os, let ep := enc_run os ep0 in
         length (Chan.buf (ep_pool ep)) ≤ Chan.cap (ep_pool ep)
         ∧ Chan.cap (ep_pool ep) = pool_size poolSize
         ∧ fst (EncoderPool_Get ep) ≠ None
         ∧ (∀ e rest, Chan.buf (ep_pool ep) = e :: rest →
              EncoderPool_Get ep
              = (e, MkEncoderPool (Chan.Make rest (Chan.cap (ep_pool ep))) (ep_format ep)))
         ∧ (Chan.buf (ep_pool ep) = [] → EncoderPool_Get ep = (NewEncoder f, ep))
         ∧ EncoderPool_Put None ep = ep
         ∧ (∀ e, length (Chan.buf (ep_pool ep)) = Chan.cap (ep_pool ep) →
              EncoderPool_Put e ep = ep)
         ∧ (∀ e, e ≠ None → length (Chan.buf (ep_pool ep)) < Chan.cap (ep_pool ep) →
              EncoderPool_Put e ep
              = MkEncoderPool
                  (Chan.Make (Chan.buf (ep_pool ep) ++ [e]) (Chan.cap (ep_pool ep)))
                  (ep_format ep)))
    ∧ (∃ dp0, NewDecoderPool poolSize f = Some dp0 ∧
       ∀ os, let dp := dec_run os dp0 in
         length (Chan.buf (dp_pool dp)) ≤ Chan.cap (dp_pool dp)
         ∧ Chan.cap (dp_pool dp) = pool_size poolSize
         ∧ fst (DecoderPool_Get dp) ≠ None
         ∧ (∀ d rest, Chan.buf (dp_pool dp) = d :: rest →
              DecoderPool_Get dp
              = (d, MkDecoderPool (Chan.Make rest (Chan.cap (dp_pool dp))) (dp_format dp)))
         ∧ (Chan.buf (dp_pool dp) = [] → DecoderPool_Get dp = (NewDecoder f, dp))
         ∧ DecoderPool_Put None dp = dp
         ∧ (∀ d, length (Chan.buf (dp_pool dp)) = Chan.cap (dp_pool dp) →
              DecoderPool_Put d dp = dp)
         ∧ (∀ d, d ≠ None → length (Chan.buf (dp_pool dp)) < Chan.cap (dp_pool dp) →
              DecoderPool_Put d dp
              = MkDecoderPool
                  (Chan.Make (Chan.buf (dp_pool dp) ++ [d]) (Chan.cap (dp_pool dp)))
                  (dp_format dp))).
Proof.
  intros Henc Hdec poolSize f. split.
  - eexists. split; [apply NewEncoderPool_full|]. intros os ep.
    destruct (enc_run_within os
                (MkEncoderPool
                   (Chan.Make (replicate (pool_size poolSize) (NewEncoder f))
                      (pool_size poolSize)) f))
      as (Hin & Hcap & Hfmt); [simpl; apply within_replicate, Henc|].
    pose proof Hin as [Hlen Hall].
    fold ep in Hin, Hlen, Hall, Hcap, Hfmt. simpl in Hcap, Hfmt. clearbody ep.
    destruct (EncoderPool_Get_cases ep) as [Hsome Hnone].
    destruct (EncoderPool_Put_cases ep) as (Hnil & Hfull & Hroom).
    rewrite Hfmt in Hnone.
    repeat split; try done.
    + apply EncoderPool_Get_not_nil; [done | apply Henc].
    + intros e Heq. apply Hfull. lia.
  - eexists. split; [apply NewDecoderPool_full|]. intros os dp.
    destruct (dec_run_within os
                (MkDecoderPool
                   (Chan.Make (replicate (pool_size poolSize) (NewDecoder f))
                      (pool_size poolSize)) f))
      as (Hin & Hcap & Hfmt); [simpl; apply within_replicate, Hdec|].
    pose proof Hin as [Hlen Hall].
    fold dp in Hin, Hlen, Hall, Hcap, Hfmt. simpl in Hcap, Hfmt. clearbody dp.
    destruct (DecoderPool_Get_cases dp) as [Hsome Hnone].
    destruct (DecoderPool_Put_cases dp) as (Hnil & Hfull & Hroom).
    rewrite Hfmt in Hnone.
    repeat split; try done.
    + apply DecoderPool_Get_not_nil; [done | apply Hdec].
    + intros d Heq. apply Hfull. lia.
Qed.

End PoolFacts.

(** The theorem at the pools of [unit_codec] built for two instances: after
    three Gets and the return of a nil encoder, Get still yields an encoder
    and the pool is within its capacity of two. *)
Lemma codec_pools_bounded_witness :
  (∀ f, NewEncoder (Codec:=unit_codec) f ≠ None)
  ∧ (∀ f, NewDecoder (Codec:=unit_codec) f ≠ None)
  ∧ ∃ ep0, NewEncoderPool (H:=unit_codec) 2 tt = Some ep0 ∧
      let ep := enc_run [EncGet; EncGet; EncGet; EncPut None] ep0 in
      length (Chan.buf (ep_pool ep)) ≤ 2 ∧ fst (EncoderPool_Get ep) ≠ None.
Proof.
  assert (He : ∀ f, NewEncoder (Codec:=unit_codec) f ≠ None) by (intros f; simpl; discriminate).
  assert (Hd : ∀ f, NewDecoder (Codec:=unit_codec) f ≠ None) by (intros f; simpl; discriminate).
  split; [exact He|]. split; [exact Hd|].
  destruct (codec_pools_bounded (H:=unit_codec) He Hd 2 tt) as [(ep0 & Hnew & Hrun) _].
  exists ep0. split; [exact Hnew|].
  destruct (Hrun [EncGet; EncGet; EncGet; EncPut None]) as (Hlen & Hcap & Hget & _).
  split; [|exact Hget].
  rewrite Hcap in Hlen. exact Hlen.
Defined.
(** A pool asked for with a size below one is built with the default size,
    full; a pool of two serves its two instances and then new ones; an
    instance put into a full pool is not kept. *)
Example default_pool_size :
  (λ ep : @EncoderPool unit_codec, (length (Chan.buf (ep_pool ep)), Chan.cap (ep_pool ep)))
    <$> NewEncoderPool (H:=unit_codec) (-3) tt
  = Some (100, 100).
Proof. vm_compute. reflexivity. Qed.

Example pool_of_two_drained :
  (λ dp : @DecoderPool unit_codec,
     (length (Chan.buf (dp_pool (dec_run [DecGet; DecGet] dp))),
      fst (DecoderPool_Get (dec_run [DecGet; DecGet] dp)),
      length (Chan.buf (dp_pool (dec_run [DecGet; DecGet; DecGet; DecPut (H:=unit_codec) (Some 7)] dp)))))
    <$> NewDecoderPool (H:=unit_codec) 2 tt
  = Some (0, Some 1, 1).
Proof. vm_compute. reflexivity. Qed.

Example put_into_full_pool :
  (λ ep : @EncoderPool unit_codec, Chan.buf (ep_pool (EncoderPool_Put (H:=unit_codec) (Some 9) ep)))
    <$> NewEncoderPool (H:=unit_codec) 2 tt
  = Some [Some 0; Some 0].
Proof. vm_compute. reflexivity. Qed.

End WRPFacts.

(** ** AuthorizationHandler *)

Module HandlerFacts.
Import Http Handler HandlerDemo.

Lemma length_zero_empty (s : string) : String.length s = 0 ↔ s = "".
Proof. destruct s; simpl; split; intros; done. Qed.

(** [WriteHeader] case by case. *)
Lemma WriteHeader_written (code c : Z) (rw : ResponseWriter) :
  rw_code rw = Some c → WriteHeader code rw = Some rw.
Proof. intros Hc. unfold WriteHeader. by rewrite Hc. Qed.

Lemma WriteHeader_valid (code : Z) (rw : ResponseWriter) :
  rw_code rw = None → valid_status code →
  WriteHeader code rw
  = Some {| rw_header := rw_header rw; rw_code := Some code; rw_body := rw_body rw |}.
Proof. intros Hc Hok. unfold WriteHeader. rewrite Hc. by case_decide. Qed.

Lemma WriteHeader_invalid (code : Z) (rw : ResponseWriter) :
  rw_code rw = None → ¬ valid_status code → WriteHeader code rw = None.
Proof. intros Hc Hbad. unfold WriteHeader. rewrite Hc. by case_decide. Qed.

Section Authorization.
Context `{Env} {X : Type}.

(** The four ways a request is served by the closure of [Decorate]. *)
Lemma decorated_missing hn fc lg v (delegate : HandlerT X) request w :
  Header_Get CanonicalMIMEHeaderKey (Req_Header request) hn = "" →
  decorated hn fc lg v delegate request w
  = on_response (WriteJsonError fc ("No " +:+ hn +:+ " header"))
      (Logger_Error lg ["No " +:+ hn +:+ " header"] w).
Proof.
  intros Hv. unfold decorated. rewrite Hv. simpl. done.
Qed.

Lemma decorated_unparsable hn fc lg v (delegate : HandlerT X) request w tok e :
  Header_Get CanonicalMIMEHeaderKey (Req_Header request) hn ≠ "" →
  ParseAuthorization (Header_Get CanonicalMIMEHeaderKey (Req_Header request) hn)
  = (tok, Some e) →
  decorated hn fc lg v delegate request w
  = on_response
      (WriteJsonError fc ("Invalid authorization header [" +:+ hn +:+ "]: " +:+ e))
      (Logger_Error lg ["Invalid authorization header [" +:+ hn +:+ "]: " +:+ e] w).
Proof.
  intros Hv Hparse. unfold decorated. case_decide as Hlen.
  - by apply length_zero_empty in Hlen.
  - by rewrite Hparse.
Qed.

Lemma decorated_approved hn fc lg v (delegate : HandlerT X) request w tok :
  Header_Get CanonicalMIMEHeaderKey (Req_Header request) hn ≠ "" →
  ParseAuthorization (Header_Get CanonicalMIMEHeaderKey (Req_Header request) hn)
  = (tok, None) →
  v [("path", URL_Path request); ("method", Method request)] tok = (true, None) →
  decorated hn fc lg v delegate request w = ServeHTTP delegate request w.
Proof.
  intros Hv Hparse Hvalid. unfold decorated. case_decide as Hlen.
  - by apply length_zero_empty in Hlen.
  - rewrite Hparse, Hvalid. done.
Qed.

Lemma decorated_denied hn fc lg v (delegate : HandlerT X) request w tok valid err :
  Header_Get CanonicalMIMEHeaderKey (Req_Header request) hn ≠ "" →
  ParseAuthorization (Header_Get CanonicalMIMEHeaderKey (Req_Header request) hn)
  = (tok, None) →
  v [("path", URL_Path request); ("method", Method request)] tok = (valid, err) →
  valid = false ∨ err ≠ None →
  decorated hn fc lg v delegate request w
  = on_response (WriteHeader fc)
      (Logger_Error lg ["Request denied: %s"; reqLogMsg request]
         match err with
         | Some e => Logger_Error lg ["Validation error: %s"; e] w
         | None => w
         end).
Proof.
  intros Hv Hparse Hvalid Hbad. unfold decorated. case_decide as Hlen.
  - by apply length_zero_empty in Hlen.
  - rewrite Hparse, Hvalid. destruct err as [e|]; [done|].
    destruct valid; [|done]. by destruct Hbad.
Qed.

(** [WriteJsonError] on a writer whose status is not written yet. *)
Lemma WriteJsonError_valid (code : Z) (message : string) (rw : ResponseWriter) :
  rw_code rw = None → valid_status code →
  WriteJsonError code message rw
  = Some {| rw_header :=
              <[CanonicalMIMEHeaderKey ContentTypeOptionsHeader := [NoSniff]]>
                (<[CanonicalMIMEHeaderKey ContentTypeHeader := [JsonContentType]]>
                   (rw_header rw));
            rw_code := Some code;
            rw_body := rw_body rw +:+ json_message message |}.
Proof.
  intros Hc Hok. unfold WriteJsonError.
  rewrite WriteHeader_valid by done. done.
Qed.

Lemma WriteJsonError_invalid (code : Z) (message : string) (rw : ResponseWriter) :
  rw_code rw = None → ¬ valid_status code → WriteJsonError code message rw = None.
Proof.
  intros Hc Hbad. unfold WriteJsonError. by rewrite WriteHeader_invalid.
Qed.

(** With a status [WriteHeader] accepts, neither call panics. *)
Lemma WriteHeader_returns (code : Z) (rw : ResponseWriter) :
  valid_status code →
  ∃ rw', WriteHeader code rw = Some rw'
         ∧ rw_code rw' = Some (default code (rw_code rw)).
Proof.
  intros Hok. destruct (rw_code rw) as [c|] eqn:Hc.
  - exists rw. split; [by apply (WriteHeader_written _ c) | by rewrite Hc].
  - eexists. split; [by apply WriteHeader_valid | done].
Qed.

Lemma WriteJsonError_returns (code : Z) (message : string) (rw : ResponseWriter) :
  valid_status code →
  ∃ rw', WriteJsonError code message rw = Some rw'
         ∧ rw_code rw' = Some (default code (rw_code rw)).
Proof.
  intros Hok. unfold WriteJsonError.
  destruct (WriteHeader_returns code
              (SetHeader CanonicalMIMEHeaderKey ContentTypeOptionsHeader NoSniff
                 (SetHeader CanonicalMIMEHeaderKey ContentTypeHeader JsonContentType rw)) Hok)
    as (rw' & -> & Hcode).
  eexists. split; [done|]. simpl in *. by rewrite Hcode.
Qed.

(** C10.  When the Validator of the configuration is nil, [Decorate] returns
    the delegate it was given, unchanged: serving a request through the result
    is serving it through the delegate, with no header read and no check
    made. *)
Theorem decorate_without_validator (a : AuthorizationHandler) (delegate : HandlerT X) :
  Validator a = None →
  Decorate a delegate = delegate
  ∧ ∀ request w,
      ServeHTTP (Decorate a delegate) request w = ServeHTTP delegate request w.
Proof.
  intros Hnil. unfold Decorate. rewrite Hnil. done.
Qed.

(** C7.  The header name and the status for denials are resolved when
    [Decorate] is called and captured by the handler it returns: the header
    is secure.AuthorizationHeader when HeaderName is empty and HeaderName
    otherwise, the status is 403 when ForbiddenStatusCode is not positive and
    ForbiddenStatusCode otherwise.  The handler depends on the configuration
    through these resolved values (and the validator and logger) only.  It
    reads the resolved header of each request, and a denial hands the resolved
    status to WriteHeader: on a response whose status is not written yet the
    response gets that status when it is a three-digit one, and the handler
    panics in WriteHeader when it is not. *)
Theorem decorate_resolves_defaults (a : AuthorizationHandler) (validator : ValidatorImpl)
    (delegate : HandlerT X) :
  Validator a = Some validator →
  let header := if decide (HeaderName a = "") then AuthorizationHeader else HeaderName a in
  let status :=
    if decide (ForbiddenStatusCode a ≤ 0)%Z then 403%Z else ForbiddenStatusCode a in
  Decorate a delegate = Some (decorated header status (logger a) validator delegate)
  ∧ (∀ a' : AuthorizationHandler,
       Validator a' = Some validator → logger a' = logger a →
       headerName a' = header → forbiddenStatusCode a' = status →
       Decorate a' delegate = Decorate a delegate)
  ∧ (∀ request w,
       rw_code (response w) = None →
       Header_Get CanonicalMIMEHeaderKey (Req_Header request) header = "" →
       ServeHTTP (Decorate a delegate) request w
       = on_response (WriteJsonError status ("No " +:+ header +:+ " header"))
           (Logger_Error (logger a) ["No " +:+ header +:+ " header"] w)
       ∧ ((100 ≤ status ≤ 999)%Z →
          ∃ w', ServeHTTP (Decorate a delegate) request w = Some w'
                ∧ rw_code (response w') = Some status
                ∧ rw_body (response w')
                  = rw_body (response w)
                    +:+ json_message ("No " +:+ header +:+ " header"))
       ∧ (¬ (100 ≤ status ≤ 999)%Z →
          ServeHTTP (Decorate a delegate) request w = None))
  ∧ (∀ request w tok valid err,
       rw_code (response w) = None →
       Header_Get CanonicalMIMEHeaderKey (Req_Header request) header ≠ "" →
       ParseAuthorization (Header_Get CanonicalMIMEHeaderKey (Req_Header request) header)
       = (tok, None) →
       validator [("path", URL_Path request); ("method", Method request)] tok
       = (valid, err) →
       valid = false ∨ err ≠ None →
       ((100 ≤ status ≤ 999)%Z →
        ∃ w', ServeHTTP (Decorate a delegate) request w = Some w'
              ∧ rw_code (response w') = Some status)
       ∧ (¬ (100 ≤ status ≤ 999)%Z →
          ServeHTTP (Decorate a delegate) request w = None)).
Proof.
  intros Hval header status.
  assert (Hh : headerName a = header).
  { unfold headerName, header.
    destruct (HeaderName a) as [|c rest]; simpl; repeat case_decide; try done; lia. }
  assert (Hs : forbiddenStatusCode a = status).
  { unfold forbiddenStatusCode, status, StatusForbidden. repeat case_decide; try done; lia. }
  assert (Hdec : Decorate a delegate
                 = Some (decorated header status (logger a) validator delegate)).
  { unfold Decorate. rewrite Hval, Hh, Hs. done. }
  split; [exact Hdec|]. split; [|split].
  - intros a' Hval' Hlog' Hh' Hs'. rewrite Hdec. unfold Decorate.
    rewrite Hval', Hlog', Hh', Hs'. done.
  - intros request w Hfresh Hmissing. rewrite Hdec. simpl.
    rewrite decorated_missing by done. split; [done|]. unfold on_response. simpl.
    split.
    + intros Hok. rewrite WriteJsonError_valid by done. eexists. split; [done|]. done.
    + intros Hbad. by rewrite WriteJsonError_invalid.
  - intros request w tok valid err Hfresh Hpresent Hparse Hvalid Hbad. rewrite Hdec. simpl.
    rewrite (decorated_denied _ _ _ _ _ _ _ tok valid err) by done.
    unfold on_response.
    assert (Hcode : rw_code
                      (response
                         (Logger_Error (logger a) ["Request denied: %s"; reqLogMsg request]
                            match err with
                            | Some e => Logger_Error (logger a) ["Validation error: %s"; e] w
                            | None => w
                            end)) = None) by (by destruct err).
    split.
    + intros Hok. rewrite WriteHeader_valid by done. eexists. split; [done|]. done.
    + intros Hno. by rewrite WriteHeader_invalid.
Qed.

(** C9.  A handler made by [Decorate] with a validator and a forbidden
    status that WriteHeader accepts (a three-digit one) serves a request
    arriving on a response nothing has been written to in one of four ways.
    When the authorization header is present (its value is not empty, which
    is how the handler tests it), the value parses and Validate returns
    (true, nil), the delegate is invoked on the request, once, and nothing
    else is done.  In the three other cases the delegate is not invoked and
    the response carries the forbidden status: with the JSON error body (and
    its two content headers, added to the headers set so far) when the header
    is missing or does not parse, and with an empty body when Validate
    returns false or an error. *)
Theorem decorate_gate (a : AuthorizationHandler) (validator : ValidatorImpl)
    (delegate : HandlerT X) (request : Request) (w : World X) :
  Validator a = Some validator →
  (100 ≤ forbiddenStatusCode a ≤ 999)%Z →
  unwritten (response w) →
  let value := Header_Get CanonicalMIMEHeaderKey (Req_Header request) (headerName a) in
  let ctx := [("path", URL_Path request); ("method", Method request)] in
  let served := ServeHTTP (Decorate a delegate) request w in
  let json_headers : Header :=
    <[CanonicalMIMEHeaderKey ContentTypeOptionsHeader := [NoSniff]]>
      (<[CanonicalMIMEHeaderKey ContentTypeHeader := [JsonContentType]]>
         (rw_header (response w))) in
  (value ≠ "" →
   ∀ tok, ParseAuthorization value = (tok, None) → validator ctx tok = (true, None) →
     served = ServeHTTP delegate request w)
  ∧ (value = "" →
     let message := "No " +:+ headerName a +:+ " header" in
     served
     = Some {| response := {| rw_header := json_headers;
                              rw_code := Some (forbiddenStatusCode a);
                              rw_body := json_message message |};
               log := log w ++ [(logger a, [message])];
               rest := rest w |})
  ∧ (value ≠ "" →
     ∀ tok e, ParseAuthorization value = (tok, Some e) →
       let message := "Invalid authorization header [" +:+ headerName a +:+ "]: " +:+ e in
       served
       = Some {| response := {| rw_header := json_headers;
                                rw_code := Some (forbiddenStatusCode a);
                                rw_body := json_message message |};
                 log := log w ++ [(logger a, [message])];
                 rest := rest w |})
  ∧ (value ≠ "" →
     ∀ tok valid err, ParseAuthorization value = (tok, None) →
       validator ctx tok = (valid, err) → valid = false ∨ err ≠ None →
       served
       = Some {| response := {| rw_header := rw_header (response w);
                                rw_code := Some (forbiddenStatusCode a);
                                rw_body := "" |};
                 log := log w
                        ++ match err with
                           | Some e => [(logger a, ["Validation error: %s"; e])]
                           | None => []
                           end
                        ++ [(logger a, ["Request denied: %s"; reqLogMsg request])];
                 rest := rest w |}).
Proof.
  intros Hval Hok [Hcode Hbody] value ctx served json_headers.
  assert (Hserved : served
                    = decorated (headerName a) (forbiddenStatusCode a) (logger a)
                        validator delegate request w).
  { unfold served, Decorate. rewrite Hval. done. }
  rewrite Hserved. destruct w as [[hdr code body] lg rst]. simpl in Hcode, Hbody.
  subst code body. unfold json_headers. simpl.
  repeat split.
  - intros Hpresent tok Hparse Hvalid. by apply (decorated_approved _ _ _ _ _ _ _ tok).
  - intros Hmissing. rewrite decorated_missing by done.
    unfold on_response. simpl. by rewrite WriteJsonError_valid.
  - intros Hpresent tok e Hparse. rewrite (decorated_unparsable _ _ _ _ _ _ _ tok e) by done.
    unfold on_response. simpl. by rewrite WriteJsonError_valid.
  - intros Hpresent tok valid err Hparse Hvalid Hbad.
    rewrite (decorated_denied _ _ _ _ _ _ _ tok valid err) by done.
    destruct err as [e|]; unfold on_response, Logger_Error; simpl;
      rewrite WriteHeader_valid by done; simpl.
    + by rewrite <- app_assoc.
    + done.
Qed.

End Authorization.

(** With a delegate that counts its invocations and a forbidden status that
    WriteHeader accepts: serving a request invokes the delegate at most once,
    and once exactly when the authorization header has a value that parses and
    that Validate accepts without error. *)
Lemma decorate_gate_counts `{Env} (a : AuthorizationHandler)
    (validator : ValidatorImpl) (request : Request) (w : World nat) :
  Validator a = Some validator →
  valid_status (forbiddenStatusCode a) →
  let value := Header_Get CanonicalMIMEHeaderKey (Req_Header request) (headerName a) in
  let ctx := [("path", URL_Path request); ("method", Method request)] in
  ∃ w', ServeHTTP (Decorate a (Some counting_delegate)) request w = Some w'
    ∧ (rest w' = rest w ∨ rest w' = S (rest w))
    ∧ (rest w' = S (rest w)
       ↔ value ≠ "" ∧ ∃ tok, ParseAuthorization value = (tok, None)
                             ∧ validator ctx tok = (true, None)).
Proof.
  intros Hval Hok value ctx. unfold Decorate. rewrite Hval. simpl.
  destruct (decide (value = "")) as [Hmissing|Hpresent].
  { rewrite decorated_missing by done. unfold on_response.
    destruct (WriteJsonError_returns (forbiddenStatusCode a)
                ("No " +:+ headerName a +:+ " header")
                (response (Logger_Error (logger a)
                             ["No " +:+ headerName a +:+ " header"] w)) Hok)
      as (rw' & -> & _).
    eexists. split; [done|]. simpl.
    split; [by left|]. split; [lia | by intros [? _]]. }
  destruct (ParseAuthorization value) as [tok [e|]] eqn:Hparse.
  { rewrite (decorated_unparsable _ _ _ _ _ _ _ tok e) by done. unfold on_response.
    destruct (WriteJsonError_returns (forbiddenStatusCode a)
                ("Invalid authorization header [" +:+ headerName a +:+ "]: " +:+ e)
                (response (Logger_Error (logger a)
                             ["Invalid authorization header [" +:+ headerName a +:+ "]: "
                              +:+ e] w)) Hok)
      as (rw' & -> & _).
    eexists. split; [done|]. simpl. split; [by left|].
    split; [lia | intros (_ & tok' & Hp & _); congruence]. }
  destruct (validator ctx tok) as [valid err] eqn:Hvalid.
  destruct (decide (valid = true ∧ err = None)) as [[-> ->]|Hbad].
  - rewrite (decorated_approved _ _ _ _ _ _ _ tok) by done.
    eexists. split; [done|]. simpl. split; [by right|].
    split; [|done]. intros _. split; [done|]. by exists tok.
  - assert (valid = false ∨ err ≠ None) as Hbad'.
    { destruct valid; [|by left]. right. intros ->. by apply Hbad. }
    rewrite (decorated_denied _ _ _ _ _ _ _ tok valid err) by done.
    unfold on_response.
    match goal with
    | |- context [WriteHeader ?c ?rw] =>
        destruct (WriteHeader_returns c rw Hok) as (rw' & -> & _)
    end.
    eexists. split; [done|]. destruct err; simpl.
    + split; [by left|]. split; [lia|]. intros (_ & tok' & Hp & Hv). congruence.
    + split; [by left|]. split; [lia|]. intros (_ & tok' & Hp & Hv).
      assert (tok' = tok) as -> by congruence. rewrite Hvalid in Hv.
      destruct Hbad' as [-> | ?]; congruence.
Qed.

(** The body of a JSON error, character by character:
    an opening brace, the quoted key [message], a colon and a space, the
    quoted text, a closing brace. *)
Example json_message_bytes :
  map Ascii.nat_of_ascii (String.list_ascii_of_string (Handler.json_message "x"))
  = [123; 34; 109; 101; 115; 115; 97; 103; 101; 34; 58; 32; 34; 120; 34; 125].
Proof. reflexivity. Qed.

Example content_length_unknown : pretty (-1)%Z = "-1".
Proof. reflexivity. Qed.

(** A request without the header, and one whose header is there with an
    empty value, are both answered as lacking it. *)
Example header_missing :
  ServeHTTP (Decorate demo_config (Some counting_delegate)) (demo_request ∅) arrival
  = Some {| response :=
              {| rw_header := {[ "X-Content-Type-Options" := ["nosniff"];
                                 "Content-Type" := ["application/json; charset=UTF-8"] ]};
                 rw_code := Some 403%Z;
                 rw_body := json_message "No Authorization header" |};
            log := [(stdout, ["No Authorization header"])];
            rest := 0 |}.
Proof. vm_compute. reflexivity. Qed.

Example header_empty :
  ServeHTTP (Decorate demo_config (Some counting_delegate))
    (demo_request {["Authorization" := [""]]}) arrival
  = ServeHTTP (Decorate demo_config (Some counting_delegate)) (demo_request ∅) arrival.
Proof. vm_compute. reflexivity. Qed.

Example header_unparsable :
  (λ w, (rw_code (response w), rw_body (response w), rest w))
    <$> ServeHTTP (Decorate demo_config (Some counting_delegate))
          (demo_request {["Authorization" := ["garbled"]]}) arrival
  = Some (Some 403%Z,
          json_message "Invalid authorization header [Authorization]: unparsable", 0).
Proof. vm_compute. reflexivity. Qed.

(** A forbidden status of 42 is taken as configured, and every denial on a
    fresh response panics in WriteHeader. *)
Example status_42_panics :
  forbiddenStatusCode odd_status_config = 42%Z
  ∧ ServeHTTP (Decorate odd_status_config (Some counting_delegate))
      (demo_request {["Authorization" := ["broken"]]}) arrival
    = None.
Proof. split; vm_compute; reflexivity. Qed.

(** The theorems at [plain_env]. *)

Lemma decorate_without_validator_witness :
  Validator open_config = None
  ∧ Decorate open_config (Some counting_delegate) = Some counting_delegate.
Proof.
  split; [reflexivity|].
  exact (proj1 (decorate_without_validator open_config (Some counting_delegate) eq_refl)).
Defined.

Lemma decorate_resolves_defaults_witness :
  Validator demo_config = Some demo_validator
  ∧ Decorate demo_config (Some counting_delegate)
    = Some (decorated (H:=plain_env) "Authorization" 403 "stdout" demo_validator
              (Some counting_delegate)).
Proof.
  split; [reflexivity|].
  exact (proj1 (decorate_resolves_defaults demo_config demo_validator
                  (Some counting_delegate) eq_refl)).
Defined.

Lemma decorate_gate_witness :
  Validator demo_config = Some demo_validator
  ∧ (100 ≤ forbiddenStatusCode demo_config ≤ 999)%Z
  ∧ unwritten (response arrival)
  ∧ ServeHTTP (Decorate demo_config (Some counting_delegate))
      (demo_request {["Authorization" := ["secret"]]}) arrival
    = Some {| response := NewRecorder; log := []; rest := 1 |}
  ∧ ServeHTTP (Decorate demo_config (Some counting_delegate))
      (demo_request {["Authorization" := ["broken"]]}) arrival
    = Some ({| response := {| rw_header := ∅; rw_code := Some 403%Z; rw_body := "" |};
               log := [(stdout, ["Validation error: %s"; "key store unreachable"]);
                       (stdout,
                        ["Request denied: %s";
                         reqLogMsg (H:=plain_env)
                           (demo_request {["Authorization" := ["broken"]]})])];
               rest := 0 |} : World (H:=plain_env) nat).
Proof.
  assert (Hok : (100 ≤ forbiddenStatusCode demo_config ≤ 999)%Z) by (vm_compute; split; discriminate).
  assert (Hun : unwritten (response arrival)) by (split; reflexivity).
  split; [reflexivity|]. split; [exact Hok|]. split; [exact Hun|]. split.
  - refine (proj1 (decorate_gate demo_config demo_validator (Some counting_delegate)
                     (demo_request {["Authorization" := ["secret"]]}) arrival
                     eq_refl Hok Hun) _ "secret" _ _).
    + vm_compute. discriminate.
    + vm_compute. reflexivity.
    + vm_compute. reflexivity.
  - refine (proj2 (proj2 (proj2
              (decorate_gate demo_config demo_validator (Some counting_delegate)
                 (demo_request {["Authorization" := ["broken"]]}) arrival
                 eq_refl Hok Hun))) _ "broken" false (Some "key store unreachable") _ _ _).
    + vm_compute. discriminate.
    + vm_compute. reflexivity.
    + vm_compute. reflexivity.
    + right. discriminate.
Defined.

(** Three requests the gate does not hold for.  Without a validator the
    handler returned is the delegate: a request with no authorization header
    at all is served by the delegate, and no status is written.  With a
    forbidden status of 42 a denial panics in WriteHeader, and no response
    carries the status.  On a response whose status is written already a
    denial leaves that status. *)
Lemma decorate_gate_counterexample :
  ( Validator open_config = None
    ∧ Header_Get (CanonicalMIMEHeaderKey (Env:=plain_env)) (Req_Header (demo_request ∅))
        (headerName open_config) = ""
    ∧ ∃ w', ServeHTTP (Decorate open_config (Some counting_delegate)) (demo_request ∅)
              arrival = Some w'
            ∧ rest w' = 1
            ∧ rw_code (response w') = None )
  ∧ ( Validator odd_status_config = Some demo_validator
      ∧ forbiddenStatusCode odd_status_config = 42%Z
      ∧ Header_Get (CanonicalMIMEHeaderKey (Env:=plain_env)) (Req_Header (demo_request ∅))
          (headerName odd_status_config) = ""
      ∧ ServeHTTP (Decorate odd_status_config (Some counting_delegate)) (demo_request ∅)
          arrival = None )
  ∧ ( Validator demo_config = Some demo_validator
      ∧ forbiddenStatusCode demo_config = 403%Z
      ∧ Header_Get (CanonicalMIMEHeaderKey (Env:=plain_env)) (Req_Header (demo_request ∅))
          (headerName demo_config) = ""
      ∧ ∃ w', ServeHTTP (Decorate demo_config (Some counting_delegate)) (demo_request ∅)
                answered = Some w'
              ∧ rw_code (response w') = Some 200%Z ).
Proof.
  split; [|split].
  - split; [reflexivity|]. split; [vm_compute; reflexivity|].
    eexists. split; [reflexivity|]. split; reflexivity.
  - split; [reflexivity|]. split; [vm_compute; reflexivity|].
    split; vm_compute; reflexivity.
  - split; [reflexivity|]. split; [vm_compute; reflexivity|].
    split; [vm_compute; reflexivity|].
    eexists. split; [vm_compute; reflexivity|]. reflexivity.
Qed.

End HandlerFacts.

(** ** The SNS subscription bridge *)

Module SNSFacts.
Import Http SNS SNSDemo.

Lemma pending_not_ready (g : nat) (s : SubscriptionState) :
  IsReady (StorePending g s) = false.
Proof. done. Qed.

Lemma StoreConfirmed_current (id : string) (s : SubscriptionState) :
  StoreConfirmed id (generation s) s = {| identifier := id; generation := generation s |}.
Proof. unfold StoreConfirmed. by case_decide. Qed.

Lemma IsReady_confirmed (id : string) (g : nat) :
  id ≠ "" → id ≠ pending_sentinel →
  IsReady {| identifier := id; generation := g |} = true.
Proof. intros ? ?. unfold IsReady. simpl. by apply bool_decide_eq_true. Qed.

Section Bridge.
Context {Payload : Type}.
Implicit Types (cfg : Config) (b : Broker Payload) (v : ValidatorT)
  (m : Manager Payload) (es : list (event Payload)).

Lemma active_ready cfg m : consistent cfg m → active m = IsReady (state m).
Proof.
  intros (Hw & _ & _). unfold active. rewrite Hw.
  destruct (IsReady (state m)); [by apply bool_decide_eq_true | by apply bool_decide_eq_false].
Qed.

(** *** What the handler does, case by case *)

Lemma handle_other_type cfg b v req m :
  MessageType req ≠ SubscriptionConfirmation →
  SubscribeConfirmHandle cfg b v req m
  = (if ignoreOtherTypes cfg then Ignored else Failed UnsupportedMessageType, m).
Proof. intros Hty. unfold SubscribeConfirmHandle. by case_decide. Qed.

Lemma handle_invalid cfg b v req m cb valid err :
  MessageType req = SubscriptionConfirmation →
  decodeBody cfg (Body req) = inl cb →
  v cb = (valid, err) → valid = false ∨ err ≠ None →
  SubscribeConfirmHandle cfg b v req m
  = (BadRequest ValidationFailed
       {| Code := StatusBadRequest; Message := reason cfg err |}, m).
Proof.
  intros Hty Hdec Hv Hbad. unfold SubscribeConfirmHandle.
  case_decide; [|done]. rewrite Hdec, Hv.
  destruct valid, err; try done. by destruct Hbad.
Qed.

Lemma handle_confirmed cfg b v req m cb id :
  MessageType req = SubscriptionConfirmation →
  decodeBody cfg (Body req) = inl cb →
  v cb = (true, None) →
  brk_ConfirmSubscription b (calls m) (cb_token cb) = inl id →
  SubscribeConfirmHandle cfg b v req m
  = (Accepted,
     sync_worker
       {| state := {| identifier := id; generation := generation (state m) |};
          worker := worker m; queue := queue m;
          calls := calls m ++ [CallConfirmSubscription (cb_token cb)];
          logged := logged m |}).
Proof.
  intros Hty Hdec Hv Hconf. unfold SubscribeConfirmHandle.
  case_decide; [|done]. rewrite Hdec, Hv, Hconf. simpl.
  by rewrite StoreConfirmed_current.
Qed.

(** *** The pipeline stays consistent with the state cell *)

Lemma consistent_init cfg : consistent cfg (init (Payload:=Payload)).
Proof. split; [done|]. split; [done|]. simpl. lia. Qed.

Lemma consistent_sync cfg m :
  length (queue m) ≤ queueCapacity cfg → consistent cfg (sync_worker m).
Proof.
  intros Hlen. unfold sync_worker, consistent.
  destruct (IsReady (state m)) eqn:Hready; simpl; rewrite Hready.
  - split; [done|]. split; [done | lia].
  - split; [done|]. split; [done | simpl; lia].
Qed.

Lemma consistent_step cfg b v m e :
  consistent cfg m → consistent cfg (step cfg b v m e).
Proof.
  intros Hm. pose proof Hm as (Hw & Hq & Hlen). destruct e as [|req|p|]; simpl.
  - split; [done|]. split; [done | simpl; lia].
  - unfold SubscribeConfirmHandle. case_decide; [|done].
    destruct (decodeBody cfg (Body req)) as [cb|e]; [|done].
    destruct (v cb) as [[] [e|]]; try done.
    destruct (brk_ConfirmSubscription b (calls m) (cb_token cb)) as [id|e]; simpl.
    + by apply consistent_sync.
    + done.
  - unfold PublishMessage. destruct (active m) eqn:Hact; simpl; [|done].
    case_bool_decide as Hroom; simpl; [|done].
    rewrite (active_ready cfg m Hm) in Hact.
    split; [done|]. split; simpl.
    + rewrite Hact. done.
    + rewrite length_app. simpl. lia.
  - unfold worker_step. destruct (active m); [|done].
    destruct (queue m) as [|p q] eqn:Hqueue; [done|].
    split; [done|]. split; simpl.
    + intros Hnot. specialize (Hq Hnot). done.
    + simpl in Hlen. lia.
Qed.

Lemma consistent_run cfg b v es m :
  consistent cfg m → consistent cfg (run cfg b v es m).
Proof.
  revert m. induction es as [|e es IH]; intros m Hm; [done|].
  apply IH. by apply consistent_step.
Qed.

(** *** Deliveries are bounded by what was offered while ready *)

Lemma step_bound cfg b v m e :
  consistent cfg m →
  delivered (step cfg b v m e) ++ queue (step cfg b v m e)
  `sublist_of`
  (delivered m ++ queue m)
  ++ match e with
     | DoPublishMessage p => if IsReady (state m) then [p] else []
     | _ => []
     end.
Proof.
  intros Hm. destruct e as [|req|p|]; simpl.
  - unfold delivered; simpl. rewrite omap_app; simpl. rewrite !app_nil_r.
    by apply sublist_inserts_r.
  - rewrite app_nil_r. unfold SubscribeConfirmHandle. case_decide; [|done].
    destruct (decodeBody cfg (Body req)) as [cb|e]; [|done].
    destruct (v cb) as [[] [e|]]; try done.
    destruct (brk_ConfirmSubscription b (calls m) (cb_token cb)) as [id|e]; simpl.
    + unfold sync_worker; simpl. destruct (IsReady _); unfold delivered; simpl;
        rewrite omap_app; simpl; rewrite !app_nil_r; [done|].
      by apply sublist_inserts_r.
    + unfold delivered; simpl. rewrite omap_app; simpl. by rewrite app_nil_r.
  - unfold PublishMessage. destruct (active m) eqn:Hact; simpl.
    + rewrite (active_ready cfg m Hm) in Hact. rewrite Hact.
      case_bool_decide; simpl.
      * unfold delivered; simpl. by rewrite app_assoc.
      * by apply sublist_inserts_r.
    + by apply sublist_inserts_r.
  - rewrite app_nil_r. unfold worker_step. destruct (active m); [|done].
    destruct (queue m) as [|p q] eqn:Hq; [by rewrite Hq|].
    unfold delivered; simpl. rewrite omap_app; simpl. by rewrite <- app_assoc.
Qed.

Lemma run_bound cfg b v es m :
  consistent cfg m →
  delivered (run cfg b v es m) ++ queue (run cfg b v es m)
  `sublist_of` (delivered m ++ queue m) ++ offered_while_ready cfg b v es m.
Proof.
  revert m. induction es as [|e es IH]; intros m Hm.
  - simpl. by rewrite app_nil_r.
  - change (run cfg b v (e :: es) m) with (run cfg b v es (step cfg b v m e)).
    etransitivity; [apply IH; by apply consistent_step|].
    simpl. rewrite (app_assoc (delivered m ++ queue m)).
    apply sublist_app; [by apply step_bound | done].
Qed.

(** *** The worker drains the queue in order *)

Lemma worker_steps_calls b m (n : nat) :
  active m = true →
  calls (Nat.iter n (worker_step b) m)
  = calls m ++ map CallPublish (take n (queue m)).
Proof.
  revert m. induction n as [|n IH]; intros m Hact.
  - simpl. by rewrite app_nil_r.
  - rewrite Nat.iter_succ_r. unfold worker_step at 2. rewrite Hact.
    destruct (queue m) as [|p q] eqn:Hq.
    + rewrite IH by done. rewrite Hq. by rewrite !take_nil.
    + rewrite IH by exact Hact. simpl. by rewrite <- app_assoc.
Qed.

Lemma worker_steps_idle b m (n : nat) :
  active m = false → Nat.iter n (worker_step b) m = m.
Proof.
  intros Hact. induction n as [|n IH]; simpl; [done|].
  rewrite IH. unfold worker_step. by rewrite Hact.
Qed.

(** *** The claims *)

(** C1.  A confirmation callback whose Validate call fails, by an invalid
    result or by an error, is answered with HTTP 400 and the structured body
    whose code is 400 and whose message is the validator's error message
    (when the validator gave an error); the manager is left exactly as it was,
    so an identifier that was the pending sentinel still is. *)
Theorem validation_gate cfg b v req m cb (valid : bool) (err : option error) :
  MessageType req = SubscriptionConfirmation →
  decodeBody cfg (Body req) = inl cb →
  v cb = (valid, err) →
  valid = false ∨ err ≠ None →
  ∃ body,
    SubscribeConfirmHandle cfg b v req m = (BadRequest ValidationFailed body, m)
    ∧ status (BadRequest ValidationFailed body) = Some 400%Z
    ∧ Code body = 400%Z
    ∧ (∀ e, err = Some e → Message body = e)
    ∧ (identifier (state m) = pending_sentinel →
       identifier (state (snd (SubscribeConfirmHandle cfg b v req m)))
       = pending_sentinel).
Proof.
  intros Hty Hdec Hv Hbad. eexists.
  rewrite (handle_invalid cfg b v req m cb valid err) by done.
  split; [done|]. split; [done|]. split; [done|]. split; [|done].
  intros e ->. done.
Qed.

(** C2.  After Subscribe(), the broker having answered with the pending
    token, the stored identifier is that token and the state is not ready.  A
    SubscriptionConfirmation callback that then passes Validate makes the
    handler call ConfirmSubscription with the callback's token, answer HTTP
    200, and store the identifier the broker confirmed, for the same
    generation; the state is then ready when that identifier is a confirmed
    value. *)
Theorem subscribe_then_confirm cfg b v m (tok : string) :
  brk_Subscribe b (calls m) (callbackURL cfg) = inl tok →
  tok = pending_sentinel →
  let m1 := Subscribe cfg b m in
  identifier (state m1) = tok
  ∧ IsReady (state m1) = false
  ∧ ∀ req cb arn,
      MessageType req = SubscriptionConfirmation →
      decodeBody cfg (Body req) = inl cb →
      v cb = (true, None) →
      brk_ConfirmSubscription b (calls m1) (cb_token cb) = inl arn →
      ∃ m2,
        SubscribeConfirmHandle cfg b v req m1 = (Accepted, m2)
        ∧ status Accepted = Some 200%Z
        ∧ calls m2 = calls m1 ++ [CallConfirmSubscription (cb_token cb)]
        ∧ Load (state m2) = (arn, generation (state m1))
        ∧ (arn ≠ "" → arn ≠ pending_sentinel → IsReady (state m2) = true).
Proof.
  intros Hsub -> m1. split; [done|]. split; [done|].
  intros req cb arn Hty Hdec Hv Hconf. eexists.
  rewrite (handle_confirmed cfg b v req m1 cb arn) by done.
  split; [done|]. split; [done|].
  unfold sync_worker. simpl.
  destruct (IsReady {| identifier := arn; generation := S (generation (state m)) |})
    eqn:Hready; simpl.
  - split; [done|]. split; done.
  - split; [done|]. split; [done|]. intros ? ?.
    rewrite IsReady_confirmed in Hready; done.
Qed.

(** C3.  Whatever the sequence of calls, confirmation requests and worker
    iterations: the payloads handed to the broker's Publish are, in order and
    in number, among those passed to PublishMessage at a moment when the state
    was ready; a PublishMessage at a moment when it is not ready changes
    nothing, and the worker then publishes nothing.  In particular
    Subscribe(), at any moment, resets the identifier to the pending sentinel;
    a PublishMessage(Y) right after it leads to no Publish call however long
    the worker runs; and once the new generation is confirmed, a
    PublishMessage(Z) is published, so that the broker has then been handed
    what it had been handed before and Z, and never Y. *)
Theorem not_ready_never_delivered cfg b v :
  (∀ es, delivered (run cfg b v es init)
         `sublist_of` offered_while_ready cfg b v es init)
  ∧ (∀ es p,
       let m := run cfg b v es init in
       IsReady (state m) = false →
       PublishMessage cfg p m = m ∧ ∀ n, Nat.iter n (worker_step b) m = m)
  ∧ (∀ m Y,
       let m1 := Subscribe cfg b m in
       identifier (state m1) = pending_sentinel
       ∧ IsReady (state m1) = false
       ∧ (∀ n, Nat.iter n (worker_step b) (PublishMessage cfg Y m1) = m1)
       ∧ ∀ req cb arn Z,
           MessageType req = SubscriptionConfirmation →
           decodeBody cfg (Body req) = inl cb →
           v cb = (true, None) →
           brk_ConfirmSubscription b (calls m1) (cb_token cb) = inl arn →
           arn ≠ "" → arn ≠ pending_sentinel →
           0 < queueCapacity cfg →
           let m2 := snd (SubscribeConfirmHandle cfg b v req (PublishMessage cfg Y m1)) in
           ∀ n, 0 < n →
             calls (Nat.iter n (worker_step b) (PublishMessage cfg Z m2))
             = calls m2 ++ [CallPublish Z]
             ∧ delivered (Nat.iter n (worker_step b) (PublishMessage cfg Z m2))
               = delivered m ++ [Z]).
Proof.
  split; [|split].
  - intros es.
    pose proof (run_bound cfg b v es init (consistent_init cfg)) as Hbound.
    simpl in Hbound. etransitivity; [|exact Hbound].
    by apply sublist_inserts_r.
  - intros es p m Hready.
    assert (Hact : active m = false).
    { rewrite (active_ready cfg m); [done|]. apply consistent_run, consistent_init. }
    split.
    + unfold PublishMessage. by rewrite Hact.
    + intros n. by apply worker_steps_idle.
  - intros m Y m1.
    assert (Hdrop : PublishMessage cfg Y m1 = m1) by done.
    split; [done|]. split; [done|]. split.
    { intros n. rewrite Hdrop. by apply worker_steps_idle. }
    intros req cb arn Z Hty Hdec Hv Hconf Hne Hnp Hcap m2 n Hn.
    assert (Hm2 : m2 = {| state := {| identifier := arn;
                                      generation := S (generation (state m)) |};
                          worker := Some (S (generation (state m)));
                          queue := [];
                          calls := calls m1 ++ [CallConfirmSubscription (cb_token cb)];
                          logged := logged m1 |}).
    { unfold m2. rewrite Hdrop.
      rewrite (handle_confirmed cfg b v req m1 cb arn) by done.
      unfold sync_worker. simpl. by rewrite IsReady_confirmed. }
    assert (Hact : active m2 = true).
    { rewrite Hm2. unfold active. simpl. by apply bool_decide_eq_true. }
    assert (Hpub : PublishMessage cfg Z m2
                   = {| state := state m2; worker := worker m2; queue := [Z];
                        calls := calls m2; logged := logged m2 |}).
    { unfold PublishMessage. rewrite Hact. rewrite Hm2. simpl.
      case_bool_decide; [done | lia]. }
    assert (Hcalls : calls (Nat.iter n (worker_step b) (PublishMessage cfg Z m2))
                     = calls m2 ++ [CallPublish Z]).
    { rewrite worker_steps_calls; rewrite Hpub; [|exact Hact]. simpl.
      destruct n; [lia|]. simpl. by rewrite take_nil. }
    split; [exact Hcalls|].
    unfold delivered at 1. rewrite Hcalls. rewrite Hm2. simpl.
    rewrite !omap_app. simpl. by rewrite !app_nil_r.
Qed.


(** C5.  A request whose message type is not that of a subscription
    confirmation confirms nothing and changes nothing: it is rejected as of an
    unsupported message type or, when the configuration says so, ignored. *)
Theorem other_types_rejected cfg b v req m :
  MessageType req ≠ SubscriptionConfirmation →
  SubscribeConfirmHandle cfg b v req m
  = (if ignoreOtherTypes cfg then Ignored else Failed UnsupportedMessageType, m).
Proof. apply handle_other_type. Qed.

End Bridge.

(** *** The theorems at the collaborators of the tests *)

(** TestSNSSubConfValidateErr: after the first subscribe, a confirmation the
    validator rejects is answered 400 with the validator's message, and the
    manager is as it was. *)
Lemma validation_gate_witness :
  SubscribeConfirmHandle test_config test_broker rejecting test_confirmation
    (Subscribe test_config test_broker init)
  = (BadRequest ValidationFailed
       {| Code := 400; Message := "SNS signature validation error" |},
     Subscribe test_config test_broker init).
Proof.
  destruct (validation_gate test_config test_broker rejecting test_confirmation
              (Subscribe test_config test_broker init)
              {| cb_type := SubscriptionConfirmation; cb_token := "token-1";
                 cb_signing_cert := ""; cb_signature := ""; cb_timestamp := "" |}
              false (Some "SNS signature validation error")
              eq_refl eq_refl eq_refl (or_introl eq_refl))
    as (body & Hhandle & _ & Hcode & Hmessage & _).
  rewrite Hhandle. pose proof (Hmessage _ eq_refl) as Htext.
  destruct body as [code message]. simpl in Hcode, Htext.
  rewrite Hcode, Htext. reflexivity.
Defined.

(** testSubscribe, then testSubConf. *)
Lemma subscribe_then_confirm_witness :
  identifier (state (Subscribe test_config test_broker init)) = "pending confirmation"
  ∧ IsReady (state (Subscribe test_config test_broker init)) = false
  ∧ ∃ m2,
      SubscribeConfirmHandle test_config test_broker accepting test_confirmation
        (Subscribe test_config test_broker init) = (Accepted, m2)
      ∧ Load (state m2) = ("testSubscriptionArn", 1)
      ∧ IsReady (state m2) = true.
Proof.
  destruct (subscribe_then_confirm test_config test_broker accepting init
              pending_sentinel eq_refl eq_refl) as (Hid & Hnot & Hconfirm).
  split; [exact Hid|]. split; [exact Hnot|].
  destruct (Hconfirm test_confirmation
              {| cb_type := SubscriptionConfirmation; cb_token := "token-1";
                 cb_signing_cert := ""; cb_signature := ""; cb_timestamp := "" |}
              "testSubscriptionArn" eq_refl eq_refl eq_refl eq_refl)
    as (m2 & Hhandle & _ & _ & Hload & Hready).
  exists m2. split; [exact Hhandle|]. split; [exact Hload|].
  apply Hready; discriminate.
Defined.

(** TestSNSReadyToNotReadySwitchAndBack, with the worker running after each
    PublishMessage: of X, Y and Z only X and Z were offered while ready, and
    the broker is handed nothing else. *)
Lemma not_ready_never_delivered_witness :
  delivered
    (run test_config test_broker accepting
       [DoSubscribe; DoConfirm test_confirmation; DoPublishMessage "X"; DoWorkerStep;
        DoSubscribe; DoPublishMessage "Y"; DoWorkerStep;
        DoConfirm test_confirmation; DoPublishMessage "Z"; DoWorkerStep]
       init)
  `sublist_of` ["X"; "Z"].
Proof.
  exact (proj1 (not_ready_never_delivered test_config test_broker accepting)
           [DoSubscribe; DoConfirm test_confirmation; DoPublishMessage "X"; DoWorkerStep;
            DoSubscribe; DoPublishMessage "Y"; DoWorkerStep;
            DoConfirm test_confirmation; DoPublishMessage "Z"; DoWorkerStep]).
Defined.



(** A notification posted to the confirmation endpoint. *)
Lemma other_types_rejected_witness :
  MessageType test_notification ≠ SubscriptionConfirmation
  ∧ SubscribeConfirmHandle test_config test_broker accepting test_notification
      (init (Payload:=string))
    = (Failed UnsupportedMessageType, init).
Proof.
  assert (Hty : MessageType test_notification ≠ SubscriptionConfirmation)
    by (vm_compute; discriminate).
  split; [exact Hty|].
  exact (other_types_rejected test_config test_broker accepting test_notification init Hty).
Defined.

(** The second test, step by step: what the broker has been asked after each
    phase. *)
Example switch_and_back_calls :
  calls
    (run test_config test_broker accepting
       [DoSubscribe; DoConfirm test_confirmation; DoPublishMessage "X"; DoWorkerStep;
        DoSubscribe; DoPublishMessage "Y"; DoWorkerStep;
        DoConfirm test_confirmation; DoPublishMessage "Z"; DoWorkerStep]
       init)
  = [CallSubscribe "http://host:8090/api/v1/webhook/sns";
     CallConfirmSubscription "token-1";
     CallPublish "X";
     CallSubscribe "http://host:8090/api/v1/webhook/sns";
     CallConfirmSubscription "token-1";
     CallPublish "Z"].
Proof. vm_compute. reflexivity. Qed.

Example resubscribe_is_pending :
  Load (state (run test_config test_broker accepting
                 [DoSubscribe; DoConfirm test_confirmation; DoSubscribe] init))
  = ("pending confirmation", 2).
Proof. vm_compute. reflexivity. Qed.

(** A message queued when a new generation begins is discarded with the
    queue. *)
Example queued_then_resubscribed :
  delivered
    (run test_config test_broker accepting
       [DoSubscribe; DoConfirm test_confirmation; DoPublishMessage "X";
        DoSubscribe; DoConfirm test_confirmation; DoWorkerStep] init)
  = [].
Proof. vm_compute. reflexivity. Qed.

End SNSFacts.

(** ** More on listener aggregation *)

Module DeviceExtra.
Import Device.

Section Range.
Context {W L : Type}.

Lemma range_app (body : L → Go.Proc W) (ls1 ls2 : list L) (w : W) :
  Go.range body (ls1 ++ ls2) w = Go.seq (Go.range body ls1) (Go.range body ls2) w.
Proof.
  revert w. induction ls1 as [|l ls1 IH]; intros w; simpl; [done|].
  unfold Go.seq. destruct (body l w) as [w'|]; [|done].
  rewrite IH. done.
Qed.

Lemma range_singleton (body : L → Go.Proc W) (l : L) (w : W) :
  Go.range body [l] w = body l w.
Proof. simpl. unfold Go.seq, Go.skip. by destruct (body l w). Qed.

(** A loop that meets an element on which the body panics panics, wherever
    the element stands. *)
Lemma range_panics (body : L → Go.Proc W) (ls : list L) (l : L) (w : W) :
  l ∈ ls → (∀ w', body l w' = None) → Go.range body ls w = None.
Proof.
  intros Hin Hpanic. revert w. induction ls as [|l' ls IH]; intros w.
  - by apply elem_of_nil in Hin.
  - simpl. unfold Go.seq. destruct (body l' w) as [w'|] eqn:Hbody; [|done].
    apply elem_of_cons in Hin as [->|Hin]; [|by apply IH].
    by rewrite Hpanic in Hbody.
Qed.

End Range.

Section Listeners.
Context {Interface Message W : Type}.

(** A call of an aggregate is the loop over the listeners, also when there
    are none. *)
Lemma call_message_received_aggregate
    (ls : list (MessageReceivedListener Interface Message W)) device raw message w :
  call_message_received (MessageReceivedListeners ls) device raw message w
  = Go.range (λ l, call_message_received l device raw message) ls w.
Proof.
  unfold MessageReceivedListeners. case_decide as Hlen; [done|].
  destruct ls; [done | simpl in Hlen; lia].
Qed.

Lemma call_connect_aggregate (ls : list (ConnectListener Interface W)) device w :
  call_connect (ConnectListeners ls) device w
  = Go.range (λ l, call_connect l device) ls w.
Proof.
  unfold ConnectListeners. case_decide as Hlen; [done|].
  destruct ls; [done | simpl in Hlen; lia].
Qed.

Lemma call_disconnect_aggregate (ls : list (DisconnectListener Interface W)) device w :
  call_disconnect (DisconnectListeners ls) device w
  = Go.range (λ l, call_disconnect l device) ls w.
Proof.
  unfold DisconnectListeners. case_decide as Hlen; [done|].
  destruct ls; [done | simpl in Hlen; lia].
Qed.

Lemma call_pong_aggregate (ls : list (PongListener Interface W)) device data w :
  call_pong (PongListeners ls) device data w
  = Go.range (λ l, call_pong l device data) ls w.
Proof.
  unfold PongListeners. case_decide as Hlen; [done|].
  destruct ls; [done | simpl in Hlen; lia].
Qed.

(** X1.  Aggregation distributes over concatenation: a call of the aggregate
    of [ls1 ++ ls2] is a call of the aggregate of [ls1] followed, unless that
    one panicked, by a call of the aggregate of [ls2]; for any listeners, nil
    ones and empty lists included. *)
Theorem listeners_concat :
  (∀ (ls1 ls2 : list (MessageReceivedListener Interface Message W)) device raw message w,
     call_message_received (MessageReceivedListeners (ls1 ++ ls2)) device raw message w
     = Go.seq (call_message_received (MessageReceivedListeners ls1) device raw message)
         (call_message_received (MessageReceivedListeners ls2) device raw message) w)
  ∧ (∀ (ls1 ls2 : list (ConnectListener Interface W)) device w,
       call_connect (ConnectListeners (ls1 ++ ls2)) device w
       = Go.seq (call_connect (ConnectListeners ls1) device)
           (call_connect (ConnectListeners ls2) device) w)
  ∧ (∀ (ls1 ls2 : list (DisconnectListener Interface W)) device w,
       call_disconnect (DisconnectListeners (ls1 ++ ls2)) device w
       = Go.seq (call_disconnect (DisconnectListeners ls1) device)
           (call_disconnect (DisconnectListeners ls2) device) w)
  ∧ (∀ (ls1 ls2 : list (PongListener Interface W)) device data w,
       call_pong (PongListeners (ls1 ++ ls2)) device data w
       = Go.seq (call_pong (PongListeners ls1) device data)
           (call_pong (PongListeners ls2) device data) w).
Proof.
  repeat split; intros.
  - rewrite call_message_received_aggregate, range_app. unfold Go.seq.
    rewrite call_message_received_aggregate.
    destruct (Go.range _ ls1 w); [|done]. by rewrite call_message_received_aggregate.
  - rewrite call_connect_aggregate, range_app. unfold Go.seq.
    rewrite call_connect_aggregate.
    destruct (Go.range _ ls1 w); [|done]. by rewrite call_connect_aggregate.
  - rewrite call_disconnect_aggregate, range_app. unfold Go.seq.
    rewrite call_disconnect_aggregate.
    destruct (Go.range _ ls1 w); [|done]. by rewrite call_disconnect_aggregate.
  - rewrite call_pong_aggregate, range_app. unfold Go.seq.
    rewrite call_pong_aggregate.
    destruct (Go.range _ ls1 w); [|done]. by rewrite call_pong_aggregate.
Qed.

(** X2.  The aggregation functions do not filter nil listeners out: when one
    of the listeners supplied is nil, every call of the aggregate panics. *)
Theorem listeners_nil_panics :
  (∀ (ls : list (MessageReceivedListener Interface Message W)) device raw message w,
     None ∈ ls →
     call_message_received (MessageReceivedListeners ls) device raw message w = None)
  ∧ (∀ (ls : list (ConnectListener Interface W)) device w,
       None ∈ ls → call_connect (ConnectListeners ls) device w = None)
  ∧ (∀ (ls : list (DisconnectListener Interface W)) device w,
       None ∈ ls → call_disconnect (DisconnectListeners ls) device w = None)
  ∧ (∀ (ls : list (PongListener Interface W)) device data w,
       None ∈ ls → call_pong (PongListeners ls) device data w = None).
Proof.
  repeat split; intros.
  - rewrite call_message_received_aggregate. by apply (range_panics _ _ None).
  - rewrite call_connect_aggregate. by apply (range_panics _ _ None).
  - rewrite call_disconnect_aggregate. by apply (range_panics _ _ None).
  - rewrite call_pong_aggregate. by apply (range_panics _ _ None).
Qed.

(** X3.  The aggregate of a single listener behaves as that listener, and
    aggregates nest: the aggregate of two aggregates behaves as the aggregate
    of the two lists of listeners put end to end. *)
Theorem listeners_nest :
  (∀ (l : MessageReceivedListener Interface Message W) device raw message w,
     call_message_received (MessageReceivedListeners [l]) device raw message w
     = call_message_received l device raw message w)
  ∧ (∀ (l : ConnectListener Interface W) device w,
       call_connect (ConnectListeners [l]) device w = call_connect l device w)
  ∧ (∀ (l : DisconnectListener Interface W) device w,
       call_disconnect (DisconnectListeners [l]) device w = call_disconnect l device w)
  ∧ (∀ (l : PongListener Interface W) device data w,
       call_pong (PongListeners [l]) device data w = call_pong l device data w)
  ∧ (∀ (ls1 ls2 : list (MessageReceivedListener Interface Message W)) device raw message w,
       call_message_received
         (MessageReceivedListeners
            [MessageReceivedListeners ls1; MessageReceivedListeners ls2])
         device raw message w
       = call_message_received (MessageReceivedListeners (ls1 ++ ls2))
           device raw message w)
  ∧ (∀ (ls1 ls2 : list (ConnectListener Interface W)) device w,
       call_connect (ConnectListeners [ConnectListeners ls1; ConnectListeners ls2])
         device w
       = call_connect (ConnectListeners (ls1 ++ ls2)) device w)
  ∧ (∀ (ls1 ls2 : list (DisconnectListener Interface W)) device w,
       call_disconnect
         (DisconnectListeners [DisconnectListeners ls1; DisconnectListeners ls2])
         device w
       = call_disconnect (DisconnectListeners (ls1 ++ ls2)) device w)
  ∧ (∀ (ls1 ls2 : list (PongListener Interface W)) device data w,
       call_pong (PongListeners [PongListeners ls1; PongListeners ls2]) device data w
       = call_pong (PongListeners (ls1 ++ ls2)) device data w).
Proof.
  repeat split; intros.
  - by rewrite call_message_received_aggregate, range_singleton.
  - by rewrite call_connect_aggregate, range_singleton.
  - by rewrite call_disconnect_aggregate, range_singleton.
  - by rewrite call_pong_aggregate, range_singleton.
  - rewrite !call_message_received_aggregate, range_app.
    change [MessageReceivedListeners ls1; MessageReceivedListeners ls2]
      with ([MessageReceivedListeners ls1] ++ [MessageReceivedListeners ls2]).
    rewrite range_app. unfold Go.seq. rewrite range_singleton, call_message_received_aggregate.
    destruct (Go.range _ ls1 w); [|done]. by rewrite range_singleton, call_message_received_aggregate.
  - rewrite !call_connect_aggregate, range_app.
    change [ConnectListeners ls1; ConnectListeners ls2]
      with ([ConnectListeners ls1] ++ [ConnectListeners ls2]).
    rewrite range_app. unfold Go.seq. rewrite range_singleton, call_connect_aggregate.
    destruct (Go.range _ ls1 w); [|done]. by rewrite range_singleton, call_connect_aggregate.
  - rewrite !call_disconnect_aggregate, range_app.
    change [DisconnectListeners ls1; DisconnectListeners ls2]
      with ([DisconnectListeners ls1] ++ [DisconnectListeners ls2]).
    rewrite range_app. unfold Go.seq. rewrite range_singleton, call_disconnect_aggregate.
    destruct (Go.range _ ls1 w); [|done]. by rewrite range_singleton, call_disconnect_aggregate.
  - rewrite !call_pong_aggregate, range_app.
    change [PongListeners ls1; PongListeners ls2]
      with ([PongListeners ls1] ++ [PongListeners ls2]).
    rewrite range_app. unfold Go.seq. rewrite range_singleton, call_pong_aggregate.
    destruct (Go.range _ ls1 w); [|done]. by rewrite range_singleton, call_pong_aggregate.
Qed.

End Listeners.

(** A nil listener after a recording one. *)
Lemma listeners_nil_panics_witness :
  None ∈ [total1 (λ (d : string) (w : list string), w ++ [d]); None]
  ∧ call_connect
      (ConnectListeners [total1 (λ (d : string) (w : list string), w ++ [d]); None])
      "mac:112233445566" []
    = None.
Proof.
  assert (Hin : None ∈ [total1 (λ (d : string) (w : list string), w ++ [d]); None])
    by (apply elem_of_cons; right; apply elem_of_cons; left; reflexivity).
  split; [exact Hin|].
  exact (proj1 (proj2 (listeners_nil_panics (Interface:=string) (Message:=unit)
                         (W:=list string)))
           _ "mac:112233445566" [] Hin).
Defined.

End DeviceExtra.

(** ** More on the codec pools *)

Module WRPExtra.
Import WRP WRPCodec WRPFacts.

Section Pools.
Context `{Codec}.

Lemma pool_size_cases (poolSize : Z) :
  pool_size poolSize = (if decide (poolSize < 1)%Z then 100 else Z.to_nat poolSize)
  ∧ 0 < pool_size poolSize.
Proof. unfold pool_size, DefaultPoolSize. case_decide; split; lia. Qed.

(** Taking an instance and putting it back moves it to the back of the pool;
    on an empty pool the new instance is what is put. *)
Lemma encoder_get_put (ep : EncoderPool) :
  Chan.within Go.not_nil (ep_pool ep) → 0 < Chan.cap (ep_pool ep) →
  NewEncoder (ep_format ep) ≠ None →
  fst (EncoderPool_Get ep) ≠ None
  ∧ EncoderPool_Put (fst (EncoderPool_Get ep)) (snd (EncoderPool_Get ep))
    = MkEncoderPool
        (Chan.Make (tail (Chan.buf (ep_pool ep)) ++ [fst (EncoderPool_Get ep)])
           (Chan.cap (ep_pool ep)))
        (ep_format ep).
Proof.
  destruct ep as [[b k] fmt].
  unfold EncoderPool_Get, EncoderPool_Put, EncoderPool_New, Chan.try_recv, Chan.try_send.
  simpl. intros [Hlen Hall] Hcap Hnew. destruct b as [|e rest]; simpl in *.
  - split; [done|]. case_decide; [|done]. simpl. case_decide; [done | lia].
  - apply Forall_cons in Hall as [He _]. split; [done|].
    case_decide; [|done]. simpl. unfold Encoder in *. case_decide; [done | lia].
Qed.

Lemma decoder_get_put (dp : DecoderPool) :
  Chan.within Go.not_nil (dp_pool dp) → 0 < Chan.cap (dp_pool dp) →
  NewDecoder (dp_format dp) ≠ None →
  fst (DecoderPool_Get dp) ≠ None
  ∧ DecoderPool_Put (fst (DecoderPool_Get dp)) (snd (DecoderPool_Get dp))
    = MkDecoderPool
        (Chan.Make (tail (Chan.buf (dp_pool dp)) ++ [fst (DecoderPool_Get dp)])
           (Chan.cap (dp_pool dp)))
        (dp_format dp).
Proof.
  destruct dp as [[b k] fmt].
  unfold DecoderPool_Get, DecoderPool_Put, DecoderPool_New, Chan.try_recv, Chan.try_send.
  simpl. intros [Hlen Hall] Hcap Hnew. destruct b as [|d rest]; simpl in *.
  - split; [done|]. case_decide; [|done]. simpl. case_decide; [done | lia].
  - apply Forall_cons in Hall as [Hd _]. split; [done|].
    case_decide; [|done]. simpl. unfold Decoder in *. case_decide; [done | lia].
Qed.

(** X4.  Under a runtime that makes channels of at most [limit] elements,
    the constructors return exactly when the size asked for ([poolSize], or
    100 when [poolSize] is less than 1) is within the limit, and panic in
    [make] otherwise.  A pool that is returned is the one the constructors
    give without the limit: it has that size as capacity and starts full of
    new instances of the format asked for, whatever the codec constructors
    give, so that a Put on the new pool keeps nothing. *)
Theorem pools_start_full (limit poolSize : Z) (f : Format) :
  let size := if decide (poolSize < 1)%Z then 100%Z else poolSize in
  ((size ≤ limit)%Z →
   (∃ ep0, NewEncoderPool_limited limit poolSize f = Some ep0
      ∧ NewEncoderPool poolSize f = Some ep0
      ∧ Chan.buf (ep_pool ep0) = replicate (Z.to_nat size) (NewEncoder f)
      ∧ Chan.cap (ep_pool ep0) = Z.to_nat size
      ∧ 0 < Chan.cap (ep_pool ep0)
      ∧ EncoderPool_Format ep0 = f
      ∧ ∀ e, EncoderPool_Put e ep0 = ep0)
   ∧ (∃ dp0, NewDecoderPool_limited limit poolSize f = Some dp0
        ∧ NewDecoderPool poolSize f = Some dp0
        ∧ Chan.buf (dp_pool dp0) = replicate (Z.to_nat size) (NewDecoder f)
        ∧ Chan.cap (dp_pool dp0) = Z.to_nat size
        ∧ 0 < Chan.cap (dp_pool dp0)
        ∧ DecoderPool_Format dp0 = f
        ∧ ∀ d, DecoderPool_Put d dp0 = dp0))
  ∧ ((limit < size)%Z →
     NewEncoderPool_limited limit poolSize f = None
     ∧ NewDecoderPool_limited limit poolSize f = None).
Proof.
  intros size.
  assert (Hsize : pool_size poolSize = Z.to_nat size ∧ (1 ≤ size)%Z).
  { unfold pool_size, size, DefaultPoolSize. case_decide; split; lia. }
  destruct Hsize as [Hn Hpos].
  assert (Hsame : (if decide (poolSize < 1)%Z then DefaultPoolSize else poolSize) = size)
    by done.
  clearbody size. split.
  - intros Hfit.
    assert (Hmake : ∀ A, make_chan (A:=A) limit size = Some (Chan.make (Z.to_nat size))).
    { intros A. unfold make_chan.
      destruct (decide (0 ≤ size ≤ limit)%Z); [done | lia]. }
    split.
    + eexists. split; [|split; [apply NewEncoderPool_full|]].
      * unfold NewEncoderPool_limited. rewrite Hsame, Hmake.
        pose proof (NewEncoderPool_full poolSize f) as Hfull.
        unfold NewEncoderPool in Hfull. rewrite Hsame in Hfull. exact Hfull.
      * clear Hsame. rewrite Hn. simpl.
        split; [done|]. split; [done|]. split; [lia|]. split; [done|].
        intros e. unfold EncoderPool_Put, Chan.try_send. simpl.
        case_decide; [|done]. rewrite length_replicate. case_decide; [lia | done].
    + eexists. split; [|split; [apply NewDecoderPool_full|]].
      * unfold NewDecoderPool_limited. rewrite Hsame, Hmake.
        pose proof (NewDecoderPool_full poolSize f) as Hfull.
        unfold NewDecoderPool in Hfull. rewrite Hsame in Hfull. exact Hfull.
      * clear Hsame. rewrite Hn. simpl.
        split; [done|]. split; [done|]. split; [lia|]. split; [done|].
        intros d. unfold DecoderPool_Put, Chan.try_send. simpl.
        case_decide; [|done]. rewrite length_replicate. case_decide; [lia | done].
  - intros Hover.
    assert (Hmake : ∀ A, make_chan (A:=A) limit size = None).
    { intros A. unfold make_chan.
      destruct (decide (0 ≤ size ≤ limit)%Z); [lia | done]. }
    unfold NewEncoderPool_limited, NewDecoderPool_limited.
    rewrite Hsame, !Hmake. done.
Qed.

(** X5.  The pools are queues: an instance put into a pool with room goes
    behind those already pooled, so the next Get returns the oldest pooled
    instance, and the instance just put only when the pool was empty (the
    pool is then as it was before the Put). *)
Theorem pool_is_fifo :
  (∀ (ep : EncoderPool) (e : Encoder),
     e ≠ None → length (Chan.buf (ep_pool ep)) < Chan.cap (ep_pool ep) →
     EncoderPool_Get (EncoderPool_Put e ep)
     = (default e (head (Chan.buf (ep_pool ep))),
        MkEncoderPool
          (Chan.Make (tail (Chan.buf (ep_pool ep) ++ [e])) (Chan.cap (ep_pool ep)))
          (ep_format ep))
     ∧ (Chan.buf (ep_pool ep) = [] → EncoderPool_Get (EncoderPool_Put e ep) = (e, ep)))
  ∧ (∀ (dp : DecoderPool) (d : Decoder),
       d ≠ None → length (Chan.buf (dp_pool dp)) < Chan.cap (dp_pool dp) →
       DecoderPool_Get (DecoderPool_Put d dp)
       = (default d (head (Chan.buf (dp_pool dp))),
          MkDecoderPool
            (Chan.Make (tail (Chan.buf (dp_pool dp) ++ [d])) (Chan.cap (dp_pool dp)))
            (dp_format dp))
       ∧ (Chan.buf (dp_pool dp) = [] → DecoderPool_Get (DecoderPool_Put d dp) = (d, dp))).
Proof.
  split.
  - intros [[b k] fmt] e He. simpl. intros Hroom.
    unfold EncoderPool_Put, EncoderPool_Get, Chan.try_send, Chan.try_recv. simpl.
    case_decide; [|done]. case_decide; [|lia]. simpl.
    destruct b as [|e0 rest]; simpl; [|by split].
    split; [done|]. done.
  - intros [[b k] fmt] d Hd. simpl. intros Hroom.
    unfold DecoderPool_Put, DecoderPool_Get, Chan.try_send, Chan.try_recv. simpl.
    case_decide; [|done]. case_decide; [|lia]. simpl.
    destruct b as [|d0 rest]; simpl; [|by split].
    split; [done|]. done.
Qed.

Section Shortcuts.
Context {W : Type} `{!Methods W}.

(** X6.  Encode and EncodeBytes on a pool built by NewEncoderPool and used
    in any way through Get and Put: the body runs on the oldest pooled
    encoder, or on a new one when the pool is empty, which is never nil; and
    whether the body returns, fails or panics, that encoder is in the pool
    afterwards, behind the others, so that the pool has lost nothing and holds
    at least one encoder, within its capacity.  (The codec constructor is
    taken not to return nil.) *)
Theorem encode_returns_encoder :
  (∀ f, NewEncoder f ≠ None) →
  ∀ (poolSize : Z) (f : Format) (os : list enc_op),
  ∃ ep0, NewEncoderPool poolSize f = Some ep0 ∧
    let ep := enc_run os ep0 in
    let encoder := fst (EncoderPool_Get ep) in
    let after :=
      MkEncoderPool
        (Chan.Make (tail (Chan.buf (ep_pool ep)) ++ [encoder]) (Chan.cap (ep_pool ep))) f in
    encoder ≠ None
    ∧ length (Chan.buf (ep_pool after)) = Nat.max 1 (length (Chan.buf (ep_pool ep)))
    ∧ length (Chan.buf (ep_pool after)) ≤ Chan.cap (ep_pool after)
    ∧ (∀ destination source w,
         EncoderPool_Encode destination source ep w
         = (after,
            reset_then encoder (λ e, Encoder_Reset e destination)
              (λ e, Encoder_Encode e source) w))
    ∧ (∀ destination source w,
         EncoderPool_EncodeBytes destination source ep w
         = (after,
            reset_then encoder (λ e, Encoder_ResetBytes e destination)
              (λ e, Encoder_Encode e source) w)).
Proof.
  intros Hnew poolSize f os. eexists. split; [apply NewEncoderPool_full|].
  intros ep encoder after.
  destruct (enc_run_within os
              (MkEncoderPool
                 (Chan.Make (replicate (pool_size poolSize) (NewEncoder f))
                    (pool_size poolSize)) f))
    as (Hin & Hcap & Hfmt); [simpl; apply within_replicate, Hnew|].
  fold ep in Hin, Hcap, Hfmt. simpl in Hcap, Hfmt.
  destruct (pool_size_cases poolSize) as [_ Hpos].
  destruct (encoder_get_put ep) as [Hnn Hput]; [done | lia | apply Hnew|].
  fold encoder in Hnn, Hput. rewrite Hfmt in Hput. fold after in Hput.
  assert (Hlen : length (Chan.buf (ep_pool after))
                 = Nat.max 1 (length (Chan.buf (ep_pool ep)))).
  { unfold after. simpl. rewrite length_app. simpl.
    destruct (Chan.buf (ep_pool ep)); simpl; lia. }
  split; [done|]. split; [done|]. split.
  { rewrite Hlen. destruct Hin as [Hle _].
    change (Chan.cap (ep_pool after)) with (Chan.cap (ep_pool ep)).
    unfold Encoder in *. lia. }
  split; intros destination source w.
  - unfold EncoderPool_Encode. fold ep.
    destruct (EncoderPool_Get ep) as [enc ep1] eqn:Hget. simpl in *.
    subst encoder. by rewrite Hput.
  - unfold EncoderPool_EncodeBytes. fold ep.
    destruct (EncoderPool_Get ep) as [enc ep1] eqn:Hget. simpl in *.
    subst encoder. by rewrite Hput.
Qed.

(** X7.  Decode and DecodeBytes on a pool built by NewDecoderPool and used
    in any way through Get and Put: the body runs on the oldest pooled
    decoder, or on a new one when the pool is empty, which is never nil; and
    whether the body returns, fails or panics, that decoder is in the pool
    afterwards, behind the others.  (The codec constructor is taken not to
    return nil.) *)
Theorem decode_returns_decoder :
  (∀ f, NewDecoder f ≠ None) →
  ∀ (poolSize : Z) (f : Format) (os : list dec_op),
  ∃ dp0, NewDecoderPool poolSize f = Some dp0 ∧
    let dp := dec_run os dp0 in
    let decoder := fst (DecoderPool_Get dp) in
    let after :=
      MkDecoderPool
        (Chan.Make (tail (Chan.buf (dp_pool dp)) ++ [decoder]) (Chan.cap (dp_pool dp))) f in
    decoder ≠ None
    ∧ length (Chan.buf (dp_pool after)) = Nat.max 1 (length (Chan.buf (dp_pool dp)))
    ∧ length (Chan.buf (dp_pool after)) ≤ Chan.cap (dp_pool after)
    ∧ (∀ destination source w,
         DecoderPool_Decode destination source dp w
         = (after,
            reset_then decoder (λ d, Decoder_Reset d source)
              (λ d, Decoder_Decode d destination) w))
    ∧ (∀ destination source w,
         DecoderPool_DecodeBytes destination source dp w
         = (after,
            reset_then decoder (λ d, Decoder_ResetBytes d source)
              (λ d, Decoder_Decode d destination) w)).
Proof.
  intros Hnew poolSize f os. eexists. split; [apply NewDecoderPool_full|].
  intros dp decoder after.
  destruct (dec_run_within os
              (MkDecoderPool
                 (Chan.Make (replicate (pool_size poolSize) (NewDecoder f))
                    (pool_size poolSize)) f))
    as (Hin & Hcap & Hfmt); [simpl; apply within_replicate, Hnew|].
  fold dp in Hin, Hcap, Hfmt. simpl in Hcap, Hfmt.
  destruct (pool_size_cases poolSize) as [_ Hpos].
  destruct (decoder_get_put dp) as [Hnn Hput]; [done | lia | apply Hnew|].
  fold decoder in Hnn, Hput. rewrite Hfmt in Hput. fold after in Hput.
  assert (Hlen : length (Chan.buf (dp_pool after))
                 = Nat.max 1 (length (Chan.buf (dp_pool dp)))).
  { unfold after. simpl. rewrite length_app. simpl.
    destruct (Chan.buf (dp_pool dp)); simpl; lia. }
  split; [done|]. split; [done|]. split.
  { rewrite Hlen. destruct Hin as [Hle _].
    change (Chan.cap (dp_pool after)) with (Chan.cap (dp_pool dp)).
    unfold Decoder in *. lia. }
  split; intros destination source w.
  - unfold DecoderPool_Decode. fold dp.
    destruct (DecoderPool_Get dp) as [dec dp1] eqn:Hget. simpl in *.
    subst decoder. by rewrite Hput.
  - unfold DecoderPool_DecodeBytes. fold dp.
    destruct (DecoderPool_Get dp) as [dec dp1] eqn:Hget. simpl in *.
    subst decoder. by rewrite Hput.
Qed.

End Shortcuts.
End Pools.

(** With room for a thousand elements: a pool of two is built full, a pool
    of five thousand is not built. *)
Lemma pools_start_full_witness :
  (∃ ep0, NewEncoderPool_limited (H:=unit_codec) 1000 2 tt = Some ep0
          ∧ Chan.buf (ep_pool ep0) = [Some 0; Some 0]
          ∧ Chan.cap (ep_pool ep0) = 2)
  ∧ NewDecoderPool_limited (H:=unit_codec) 1000 5000 tt = None.
Proof.
  split.
  - destruct (proj1 (pools_start_full (H:=unit_codec) 1000 2 tt)) as [Henc _].
    + vm_compute. discriminate.
    + destruct Henc as (ep0 & Hbuilt & _ & Hbuf & Hcap & _).
      exists ep0. split; [exact Hbuilt|]. split; [exact Hbuf | exact Hcap].
  - apply (proj2 (pools_start_full (H:=unit_codec) 1000 5000 tt)).
    vm_compute. reflexivity.
Defined.

(** An encoder put into an empty pool of two comes back at the next Get. *)
Lemma pool_is_fifo_witness :
  spare_encoder ≠ None
  ∧ length (Chan.buf (ep_pool drained_pool)) < Chan.cap (ep_pool drained_pool)
  ∧ EncoderPool_Get (EncoderPool_Put spare_encoder drained_pool)
    = (spare_encoder, drained_pool).
Proof.
  assert (Hnn : spare_encoder ≠ None) by discriminate.
  assert (Hroom : length (Chan.buf (ep_pool drained_pool)) < Chan.cap (ep_pool drained_pool))
    by (simpl; lia).
  split; [exact Hnn|]. split; [exact Hroom|].
  exact (proj2 (proj1 (pool_is_fifo (H:=unit_codec)) drained_pool spare_encoder Hnn Hroom)
           eq_refl).
Defined.

(** A pool of two [unit_codec] encoders, one of them taken: an encoding
    through the pool uses the other and leaves it in the pool. *)
Lemma encode_returns_encoder_witness :
  (∀ f, NewEncoder (Codec:=unit_codec) f ≠ None)
  ∧ ∃ ep0, NewEncoderPool (H:=unit_codec) 2 tt = Some ep0
      ∧ fst (EncoderPool_Get (enc_run [EncGet] ep0)) ≠ None
      ∧ ∃ after,
          EncoderPool_Encode (H0:=unit_methods) tt "hello" (enc_run [EncGet] ep0) []
          = (after,
             reset_then (fst (EncoderPool_Get (enc_run [EncGet] ep0)))
               (λ e, Encoder_Reset (Methods:=unit_methods) e tt)
               (λ e, Encoder_Encode (Methods:=unit_methods) e "hello") [])
          ∧ length (Chan.buf (ep_pool after)) = 1.
Proof.
  assert (Hnew : ∀ f, NewEncoder (Codec:=unit_codec) f ≠ None)
    by (intros f; simpl; discriminate).
  split; [exact Hnew|].
  destruct (encode_returns_encoder (H:=unit_codec) (Methods0:=unit_methods) Hnew 2 tt [EncGet])
    as (ep0 & Hbuilt & Hnn & Hlen & _ & Hencode & _).
  exists ep0. split; [exact Hbuilt|]. split; [exact Hnn|].
  eexists. split; [apply Hencode|].
  etransitivity; [exact Hlen|].
  vm_compute in Hbuilt. injection Hbuilt as <-. vm_compute. reflexivity.
Defined.

Lemma decode_returns_decoder_witness :
  (∀ f, NewDecoder (Codec:=unit_codec) f ≠ None)
  ∧ ∃ dp0, NewDecoderPool (H:=unit_codec) 2 tt = Some dp0
      ∧ fst (DecoderPool_Get (dec_run [DecGet; DecGet] dp0)) ≠ None
      ∧ ∃ after,
          DecoderPool_DecodeBytes (H0:=unit_methods) "" [] (dec_run [DecGet; DecGet] dp0) []
          = (after,
             reset_then (fst (DecoderPool_Get (dec_run [DecGet; DecGet] dp0)))
               (λ d, Decoder_ResetBytes (Methods:=unit_methods) d [])
               (λ d, Decoder_Decode (Methods:=unit_methods) d "") []).
Proof.
  assert (Hnew : ∀ f, NewDecoder (Codec:=unit_codec) f ≠ None)
    by (intros f; simpl; discriminate).
  split; [exact Hnew|].
  destruct (decode_returns_decoder (H:=unit_codec) (Methods0:=unit_methods) Hnew 2 tt
              [DecGet; DecGet])
    as (dp0 & Hbuilt & Hnn & _ & _ & _ & Hdecode).
  exists dp0. split; [exact Hbuilt|]. split; [exact Hnn|].
  eexists. apply Hdecode.
Defined.

(** A decoding that panics on a drained pool of two: the new decoder it used
    is in the pool afterwards. *)
Example decode_panic_keeps_decoder :
  (λ dp0, DecoderPool_DecodeBytes (H0:=unit_methods) "" []
            (dec_run [DecGet; DecGet] dp0) [])
    <$> NewDecoderPool (H:=unit_codec) 2 tt
  = Some (MkDecoderPool (H:=unit_codec) (Chan.Make [Some 1] 2) tt, None).
Proof. vm_compute. reflexivity. Qed.

End WRPExtra.

(** ** More on AuthorizationHandler *)

Module HandlerExtra.
Import Http Handler HandlerFacts.

Section Authorization.
Context `{Env} {X : Type}.

(** A call of [WriteHeader] or [WriteJsonError] returns when the status is
    one [WriteHeader] accepts or a status is written already, and the writer
    then shows the status written first; otherwise the call panics. *)
Lemma WriteHeader_cases (code : Z) (rw : ResponseWriter) :
  (valid_status code ∨ rw_code rw ≠ None →
   ∃ rw', WriteHeader code rw = Some rw'
          ∧ rw_code rw' = Some (default code (rw_code rw)))
  ∧ (¬ valid_status code → rw_code rw = None → WriteHeader code rw = None).
Proof.
  split.
  - intros Hcase. destruct (rw_code rw) as [c|] eqn:Hc.
    + exists rw. split; [by apply (WriteHeader_written _ c) | by rewrite Hc].
    + destruct Hcase as [Hok|?]; [|done].
      eexists. split; [by apply WriteHeader_valid | done].
  - intros Hbad Hc. by apply WriteHeader_invalid.
Qed.

Lemma WriteJsonError_cases (code : Z) (message : string) (rw : ResponseWriter) :
  (valid_status code ∨ rw_code rw ≠ None →
   ∃ rw', WriteJsonError code message rw = Some rw'
          ∧ rw_header rw'
            = <[CanonicalMIMEHeaderKey ContentTypeOptionsHeader := [NoSniff]]>
                (<[CanonicalMIMEHeaderKey ContentTypeHeader := [JsonContentType]]>
                   (rw_header rw))
          ∧ rw_body rw' = rw_body rw +:+ json_message message
          ∧ rw_code rw' = Some (default code (rw_code rw)))
  ∧ (¬ valid_status code → rw_code rw = None → WriteJsonError code message rw = None).
Proof.
  split.
  - intros Hcase. unfold WriteJsonError.
    destruct (proj1 (WriteHeader_cases code
                (SetHeader CanonicalMIMEHeaderKey ContentTypeOptionsHeader NoSniff
                   (SetHeader CanonicalMIMEHeaderKey ContentTypeHeader JsonContentType rw)))
                Hcase)
      as (rw' & Hwrite & Hcode).
    rewrite Hwrite. eexists. split; [done|].
    unfold WriteHeader in Hwrite. simpl in *.
    destruct (rw_code rw) as [c|]; simpl in *.
    + rewrite Hcode. injection Hwrite as <-. done.
    + case_decide; [|done]. rewrite Hcode. injection Hwrite as <-. done.
  - intros Hbad Hc. by apply WriteJsonError_invalid.
Qed.

(** X8.  The status used for denials is always positive, and the header name
    is not empty unless secure.AuthorizationHeader is.  Writing the resolved
    values into the configuration changes nothing: the configuration with its
    defaults spelled out resolves to the same values and decorates every
    delegate into the same handler. *)
Theorem resolved_defaults_usable (a : AuthorizationHandler) :
  (0 < forbiddenStatusCode a)%Z
  ∧ (AuthorizationHeader ≠ "" → headerName a ≠ "")
  ∧ let a' := {| HeaderName := headerName a;
                 ForbiddenStatusCode := forbiddenStatusCode a;
                 Validator := Validator a;
                 Logger := Some (logger a) |} in
    headerName a' = headerName a
    ∧ forbiddenStatusCode a' = forbiddenStatusCode a
    ∧ logger a' = logger a
    ∧ ∀ delegate : HandlerT X, Decorate a' delegate = Decorate a delegate.
Proof.
  assert (Hpos : (0 < forbiddenStatusCode a)%Z).
  { unfold forbiddenStatusCode, StatusForbidden. case_decide; lia. }
  assert (Hname : ∀ a' : AuthorizationHandler,
            HeaderName a' = headerName a → headerName a' = headerName a).
  { intros a' Heq. unfold headerName at 1. rewrite Heq. case_decide as Hlen; [done|].
    unfold headerName in *. case_decide; [lia | done]. }
  split; [exact Hpos|]. split.
  { intros Hne. unfold headerName. case_decide as Hlen; [|done].
    intros Hempty. rewrite Hempty in Hlen. simpl in Hlen. lia. }
  intros a'.
  assert (Hh : headerName a' = headerName a) by (by apply Hname).
  assert (Hs : forbiddenStatusCode a' = forbiddenStatusCode a).
  { unfold forbiddenStatusCode at 1. simpl. case_decide; [done | lia]. }
  split; [exact Hh|]. split; [exact Hs|]. split; [done|].
  intros delegate. unfold Decorate. simpl. destruct (Validator a); [|done].
  by rewrite Hh, Hs.
Qed.

(** X9.  For a validator whose answer is a function of the context and
    the token alone (it keeps no state and reads no clock, so that asking it
    twice is asking it once), decorating twice with the same configuration is
    decorating once: every request is served by the doubly decorated handler
    exactly as by the decorated one, whatever the state of the response
    writer.  (The doubly decorated handler does call Validate twice on a
    request it approves.) *)
Theorem decorate_idempotent (a : AuthorizationHandler) (delegate : HandlerT X)
    (request : Request) (w : World X) :
  ServeHTTP (Decorate a (Decorate a delegate)) request w
  = ServeHTTP (Decorate a delegate) request w.
Proof.
  unfold Decorate. destruct (Validator a) as [v|]; [|done]. simpl.
  set (hn := headerName a). set (fc := forbiddenStatusCode a). set (lg := logger a).
  destruct (decide (Header_Get CanonicalMIMEHeaderKey (Req_Header request) hn = ""))
    as [Hmissing|Hpresent].
  { by rewrite !decorated_missing. }
  destruct (ParseAuthorization (Header_Get CanonicalMIMEHeaderKey (Req_Header request) hn))
    as [tok [e|]] eqn:Hparse.
  { by rewrite !(decorated_unparsable _ _ _ _ _ _ _ tok e). }
  destruct (v [("path", URL_Path request); ("method", Method request)] tok)
    as [valid err] eqn:Hvalid.
  destruct (decide (valid = true ∧ err = None)) as [[-> ->]|Hbad].
  - rewrite (decorated_approved hn fc lg v (Some _) request w tok) by done. done.
  - assert (valid = false ∨ err ≠ None) as Hbad'.
    { destruct valid; [|by left]. right. intros ->. by apply Hbad. }
    by rewrite !(decorated_denied _ _ _ _ _ _ _ tok valid err).
Qed.

(** X10.  A request whose authorization header is missing, empty or
    unparsable is answered without the validator or the delegate being
    consulted: two configurations that resolve to the same header name,
    status and logger answer it alike, whatever their validators and
    whatever the delegates. *)
Theorem unauthenticated_outcome (a a' : AuthorizationHandler)
    (v v' : ValidatorImpl) (delegate delegate' : HandlerT X)
    (request : Request) (w : World X) :
  Validator a = Some v → Validator a' = Some v' →
  headerName a' = headerName a →
  forbiddenStatusCode a' = forbiddenStatusCode a →
  logger a' = logger a →
  let value := Header_Get CanonicalMIMEHeaderKey (Req_Header request) (headerName a) in
  value = "" ∨ (∃ tok e, ParseAuthorization value = (tok, Some e)) →
  ServeHTTP (Decorate a delegate) request w
  = ServeHTTP (Decorate a' delegate') request w.
Proof.
  intros Hv Hv' Hh Hs Hl value Hcase. unfold Decorate.
  rewrite Hv, Hv', Hh, Hs, Hl. simpl.
  destruct Hcase as [Hmissing|(tok & e & Hparse)].
  - by rewrite !decorated_missing.
  - destruct (decide (value = "")) as [Hmissing|Hpresent].
    + by rewrite !decorated_missing.
    + by rewrite !(decorated_unparsable _ _ _ _ _ _ _ tok e).
Qed.

(** X11.  A request that is not approved (no header value, an unparsable
    one, or a validation that does not return (true, nil)) is denied in the
    same way whatever the delegate.  When the forbidden status is one
    WriteHeader accepts (a three-digit one), or a status is written already,
    the handler does not panic, leaves the state beyond the response and the
    log alone, logs the denial (one entry or more, all through the configured
    logger, after what was logged before), and the response shows the
    forbidden status unless a status had been written before.  When the
    forbidden status is not a three-digit one and no status is written yet,
    the handler panics in WriteHeader. *)
Theorem denied_request_effects (a : AuthorizationHandler) (v : ValidatorImpl)
    (delegate : HandlerT X) (request : Request) (w : World X) :
  Validator a = Some v →
  let value := Header_Get CanonicalMIMEHeaderKey (Req_Header request) (headerName a) in
  let ctx := [("path", URL_Path request); ("method", Method request)] in
  value = "" ∨ (∀ tok, ParseAuthorization value = (tok, None) → v ctx tok ≠ (true, None)) →
  ((100 ≤ forbiddenStatusCode a ≤ 999)%Z ∨ rw_code (response w) ≠ None →
   ∃ w',
     ServeHTTP (Decorate a delegate) request w = Some w'
     ∧ (∀ delegate' : HandlerT X, ServeHTTP (Decorate a delegate') request w = Some w')
     ∧ rest w' = rest w
     ∧ rw_code (response w')
       = Some (default (forbiddenStatusCode a) (rw_code (response w)))
     ∧ ∃ entries,
         log w' = log w ++ entries ∧ entries ≠ []
         ∧ Forall (λ entry, entry.1 = logger a) entries)
  ∧ (¬ (100 ≤ forbiddenStatusCode a ≤ 999)%Z → rw_code (response w) = None →
     ∀ delegate' : HandlerT X, ServeHTTP (Decorate a delegate') request w = None).
Proof.
  intros Hv value ctx Hcase.
  set (fc := forbiddenStatusCode a).
  (* every denial is a call on the response writer after some logging *)
  assert (Hshape : ∃ (f : ResponseWriter → option ResponseWriter) (w0 : World X)
                     (entries : list (LoggerImpl * list string)),
            (∀ delegate' : HandlerT X,
               ServeHTTP (Decorate a delegate') request w = on_response f w0)
            ∧ response w0 = response w ∧ rest w0 = rest w
            ∧ log w0 = log w ++ entries ∧ entries ≠ []
            ∧ Forall (λ entry, entry.1 = logger a) entries
            ∧ ((∃ message, f = WriteJsonError fc message) ∨ f = WriteHeader fc)).
  { unfold Decorate. rewrite Hv. simpl. fold fc.
    destruct (decide (value = "")) as [Hmissing|Hpresent].
    { eexists _, _, _. split; [intros d'; by rewrite decorated_missing|].
      simpl. repeat split; [done | by apply Forall_singleton | left; by eexists]. }
    destruct Hcase as [?|Hdeny]; [done|].
    destruct (ParseAuthorization value) as [tok [e|]] eqn:Hparse.
    { eexists _, _, _.
      split; [intros d'; by rewrite (decorated_unparsable _ _ _ _ _ _ _ tok e)|].
      simpl. repeat split; [done | by apply Forall_singleton | left; by eexists]. }
    destruct (v ctx tok) as [valid err] eqn:Hvalid.
    assert (valid = false ∨ err ≠ None) as Hbad.
    { destruct valid; [|by left]. right. intros ->. by apply (Hdeny tok). }
    destruct err as [e|].
    - exists (WriteHeader fc). eexists.
      exists [(logger a, ["Validation error: %s"; e]);
              (logger a, ["Request denied: %s"; reqLogMsg request])].
      split; [intros d'; by rewrite (decorated_denied _ _ _ _ _ _ _ tok valid (Some e))|].
      simpl. repeat split; [by rewrite <- app_assoc | done | repeat constructor | by right].
    - eexists (WriteHeader fc), _, _.
      split; [intros d'; by rewrite (decorated_denied _ _ _ _ _ _ _ tok valid None)|].
      simpl. repeat split; [done | by apply Forall_singleton | by right]. }
  destruct Hshape as (f & w0 & entries & Hserved & Hresp & Hrest & Hlog & Hne & Hall & Hf).
  split.
  - intros Hok.
    assert (Hcall : ∃ rw', f (response w0) = Some rw'
                           ∧ rw_code rw' = Some (default fc (rw_code (response w)))).
    { rewrite Hresp. destruct Hf as [[message ->]| ->].
      - destruct (proj1 (WriteJsonError_cases fc message (response w)) Hok)
          as (rw' & Hcall & _ & _ & Hcode). by exists rw'.
      - apply (proj1 (WriteHeader_cases fc (response w)) Hok). }
    destruct Hcall as (rw' & Hcall & Hcode).
    exists {| response := rw'; log := log w0; rest := rest w0 |}.
    assert (Hresult : on_response f w0
                      = Some {| response := rw'; log := log w0; rest := rest w0 |}).
    { unfold on_response. by rewrite Hcall. }
    split; [by rewrite Hserved|]. split; [intros d'; by rewrite Hserved|].
    simpl. split; [done|]. split; [done|]. by exists entries.
  - intros Hbad Hcode delegate'. rewrite Hserved. unfold on_response. rewrite Hresp.
    destruct Hf as [[message ->]| ->].
    + by rewrite (proj2 (WriteJsonError_cases fc message (response w))).
    + by rewrite (proj2 (WriteHeader_cases fc (response w))).
Qed.

(** X12.  WriteJsonError on a response writer, when the code is one
    WriteHeader accepts (a three-digit one) or a status is written already:
    in the header map the content type becomes the JSON one and the
    content-type options [nosniff], whatever they were, every other header is
    as before; the body gains the JSON text after what was written; the
    status is the code given unless one had been written.  With any other
    code on a writer without a status, the call panics in WriteHeader.  (The
    two header names are taken to have different canonical forms.) *)
Theorem WriteJsonError_effects (code : Z) (message : string) (rw : ResponseWriter) :
  CanonicalMIMEHeaderKey ContentTypeHeader
  ≠ CanonicalMIMEHeaderKey ContentTypeOptionsHeader →
  ((100 ≤ code ≤ 999)%Z ∨ rw_code rw ≠ None →
   ∃ rw',
     WriteJsonError code message rw = Some rw'
     ∧ Header_Get CanonicalMIMEHeaderKey (rw_header rw') ContentTypeHeader = JsonContentType
     ∧ Header_Get CanonicalMIMEHeaderKey (rw_header rw') ContentTypeOptionsHeader = NoSniff
     ∧ (∀ key,
          CanonicalMIMEHeaderKey key ≠ CanonicalMIMEHeaderKey ContentTypeHeader →
          CanonicalMIMEHeaderKey key ≠ CanonicalMIMEHeaderKey ContentTypeOptionsHeader →
          Header_Get CanonicalMIMEHeaderKey (rw_header rw') key
          = Header_Get CanonicalMIMEHeaderKey (rw_header rw) key)
     ∧ rw_body rw' = rw_body rw +:+ json_message message
     ∧ rw_code rw' = Some (default code (rw_code rw)))
  ∧ (¬ (100 ≤ code ≤ 999)%Z → rw_code rw = None →
     WriteJsonError code message rw = None).
Proof.
  intros Hkeys. split; [|apply WriteJsonError_cases].
  intros Hok.
  destruct (proj1 (WriteJsonError_cases code message rw) Hok)
    as (rw' & Hcall & Hheader & Hbody & Hcode).
  exists rw'. split; [done|].
  unfold Header_Get, Header_Set, Header in *.
  split; [|split; [|split; [|split]]].
  - rewrite Hheader.
    rewrite (lookup_insert_ne (M:=gmap string)) by done.
    by rewrite (lookup_insert_eq (M:=gmap string)).
  - rewrite Hheader. by rewrite (lookup_insert_eq (M:=gmap string)).
  - intros key Hct Hcto. rewrite Hheader.
    by rewrite !(lookup_insert_ne (M:=gmap string)).
  - done.
  - done.
Qed.

End Authorization.

Import HandlerDemo.

Lemma resolved_defaults_usable_witness :
  AuthorizationHeader (Env:=plain_env) ≠ ""
  ∧ headerName demo_config ≠ ""
  ∧ (0 < forbiddenStatusCode demo_config)%Z.
Proof.
  assert (Hne : AuthorizationHeader (Env:=plain_env) ≠ "") by (simpl; discriminate).
  split; [exact Hne|].
  destruct (resolved_defaults_usable (X:=nat) demo_config) as (Hpos & Hname & _).
  split; [exact (Hname Hne) | exact Hpos].
Defined.

(** A request without the header, served under two configurations that
    differ in validator, logger field and delegate. *)
Lemma unauthenticated_outcome_witness :
  ServeHTTP (Decorate demo_config (Some counting_delegate)) (demo_request ∅) arrival
  = ServeHTTP (Decorate permissive_config None) (demo_request ∅) arrival.
Proof.
  refine (unauthenticated_outcome demo_config permissive_config demo_validator approve_all
            (Some counting_delegate) None (demo_request ∅) arrival
            eq_refl eq_refl eq_refl eq_refl eq_refl _).
  left. vm_compute. reflexivity.
Defined.

(** A request whose token the validator fails on, arriving after a status
    was already written. *)
Lemma denied_request_effects_witness :
  ∃ w',
    ServeHTTP (Decorate demo_config (Some counting_delegate))
      (demo_request {["Authorization" := ["broken"]]})
      {| response := {| rw_header := ∅; rw_code := Some 200%Z; rw_body := "partial" |};
         log := []; rest := 7 |}
    = Some w'
    ∧ rest w' = 7
    ∧ rw_code (response w') = Some 200%Z.
Proof.
  destruct (denied_request_effects demo_config demo_validator (Some counting_delegate)
              (demo_request {["Authorization" := ["broken"]]})
              {| response := {| rw_header := ∅; rw_code := Some 200%Z;
                                rw_body := "partial" |};
                 log := []; rest := 7 |}
              eq_refl)
    as [Hreturns _].
  - right. intros tok Hparse. vm_compute in Hparse.
    injection Hparse as <-. vm_compute. discriminate.
  - destruct Hreturns as (w' & Hserved & _ & Hrest & Hcode & _).
    + left. vm_compute. split; discriminate.
    + exists w'. split; [exact Hserved|]. split; [exact Hrest | exact Hcode].
Defined.

Lemma WriteJsonError_effects_witness :
  CanonicalMIMEHeaderKey (Env:=plain_env) ContentTypeHeader
  ≠ CanonicalMIMEHeaderKey (Env:=plain_env) ContentTypeOptionsHeader
  ∧ (∃ rw',
       WriteJsonError (H:=plain_env) 404 "no such device"
         {| rw_header := {["Content-Type" := ["text/plain"]]};
            rw_code := None; rw_body := "" |}
       = Some rw'
       ∧ Header_Get (CanonicalMIMEHeaderKey (Env:=plain_env)) (rw_header rw')
           ContentTypeHeader
         = JsonContentType
       ∧ rw_code rw' = Some 404%Z)
  ∧ WriteJsonError (H:=plain_env) 0 "no such device" NewRecorder = None.
Proof.
  assert (Hkeys : CanonicalMIMEHeaderKey (Env:=plain_env) ContentTypeHeader
                  ≠ CanonicalMIMEHeaderKey (Env:=plain_env) ContentTypeOptionsHeader)
    by (vm_compute; discriminate).
  split; [exact Hkeys|]. split.
  - destruct (proj1 (WriteJsonError_effects (H:=plain_env) 404 "no such device"
                       {| rw_header := {["Content-Type" := ["text/plain"]]};
                          rw_code := None; rw_body := "" |} Hkeys))
      as (rw' & Hcall & Hct & _ & _ & _ & Hcode).
    + left. vm_compute. split; discriminate.
    + exists rw'. split; [exact Hcall|]. split; [exact Hct | exact Hcode].
  - apply (proj2 (WriteJsonError_effects (H:=plain_env) 0 "no such device" NewRecorder
                    Hkeys)).
    + vm_compute. intros [Hlow _]. apply Hlow. reflexivity.
    + reflexivity.
Defined.

End HandlerExtra.
